(** * tourboxelite.gui.update_checker

    A shallow embedding of [UpdateChecker] (gui/update_checker.py) and the
    properties of its version extraction, version comparison and result
    signalling.

    Python values are modelled as follows.
    - [str] is a sequence of Unicode code points: [list N].
    - [re.search] is modelled by the backtracking matcher of the [sre]
      engine, run on the opcode sequence that [re.compile] produces for the
      pattern of [_parse_version].
    - [int(x)] is modelled after CPython's [PyLong_FromUnicodeObject] for
      base 10: [None] stands for the [ValueError] it raises.
    - the body of [run] lives in a small monad that threads the history of
      log records and emitted Qt signals and carries Python exceptions. *)

From Stdlib Require Import NArith ZArith List Bool String Ascii Lia.
Import ListNotations.

Local Open Scope N_scope.

(** ** Strings *)

(** A Python [str]: the sequence of its code points. *)
Definition str := list N.

(** A literal of the source text, given by its ASCII characters. *)
Definition lit (s : string) : str := map N_of_ascii (list_ascii_of_string s).

(** Python's slice [s[b:e]] for [0 <= b], [0 <= e]. *)
Definition slice (s : str) (b e : nat) : str := firstn (e - b)%nat (skipn b s).

(** [Py_UNICODE_ISSPACE]: the characters for which [str.isspace] holds; this
    is also the category [\s] of a [str] pattern without the ASCII flag. *)
Definition Py_UNICODE_ISSPACE (ch : N) : bool :=
  ((9 <=? ch) && (ch <=? 13)) || ((28 <=? ch) && (ch <=? 32))
  || (ch =? 133) || (ch =? 160) || (ch =? 5760)
  || ((8192 <=? ch) && (ch <=? 8202)) || (ch =? 8232) || (ch =? 8233)
  || (ch =? 8239) || (ch =? 8287) || (ch =? 12288).

(** [Py_ISSPACE]: the C-locale [isspace] on bytes, used by [PyLong_FromString]. *)
Definition Py_ISSPACE (ch : N) : bool :=
  ((9 <=? ch) && (ch <=? 13)) || (ch =? 32).

(** ** The regular-expression engine *)

Module sre.

(** The members of an [IN] block: a category, a list of literals, or the
    negation of a list of literals. *)
Inductive charset :=
| CATEGORY_UNI_SPACE
| LITERALS (cs : list N)
| NEGATE_LITERALS (cs : list N).

Definition mem (ch : N) (cs : list N) : bool := existsb (N.eqb ch) cs.

Definition charset_match (set : charset) (ch : N) : bool :=
  match set with
  | CATEGORY_UNI_SPACE => Py_UNICODE_ISSPACE ch
  | LITERALS cs => mem ch cs
  | NEGATE_LITERALS cs => negb (mem ch cs)
  end.

(** The opcodes the pattern compiles to.  [REPEAT_ONE mn set] is the greedy
    repetition, at least [mn] times and without upper bound, of one
    character of [set]. *)
Inductive opcode :=
| LITERAL (c : N)
| IN (set : charset)
| REPEAT_ONE (mn : nat) (set : charset)
| MARK (i : nat).

(** The mark array of the matcher state: the latest position stored for
    each mark comes first. *)
Definition marks := list (nat * nat).

Definition mark_get (ms : marks) (i : nat) : option nat :=
  match find (fun p => Nat.eqb (fst p) i) ms with
  | Some p => Some (snd p)
  | None => None
  end.

(** Greedy single-character repetition followed by the rest of the pattern
    [k]: take as many characters of [set] as there are, and give them back
    one at a time, down to [mn], until [k] matches. *)
Fixpoint repeat_one (k : nat -> str -> marks -> option marks)
    (set : charset) (mn : nat) (pos : nat) (s : str) (ms : marks)
    : option marks :=
  let stop := if Nat.eqb mn 0%nat then k pos s ms else None in
  match s with
  | ch :: s' =>
      if charset_match set ch then
        match repeat_one k set (pred mn) (S pos) s' ms with
        | Some r => Some r
        | None => stop
        end
      else stop
  | [] => stop
  end.

(** [sre_match code pos s ms]: match the opcodes [code] against the text [s]
    that starts at position [pos]; the end of [code] is [SUCCESS]. *)
Fixpoint sre_match (code : list opcode) (pos : nat) (s : str) (ms : marks)
    : option marks :=
  match code with
  | [] => Some ms
  | LITERAL c :: code' =>
      match s with
      | ch :: s' => if ch =? c then sre_match code' (S pos) s' ms else None
      | [] => None
      end
  | IN set :: code' =>
      match s with
      | ch :: s' =>
          if charset_match set ch then sre_match code' (S pos) s' ms else None
      | [] => None
      end
  | REPEAT_ONE mn set :: code' =>
      repeat_one (fun pos' s' ms' => sre_match code' pos' s' ms') set mn pos s ms
  | MARK i :: code' => sre_match code' pos s ((i, pos) :: ms)
  end.

(** [sre_search]: try every start position from left to right, the end of
    the text included. *)
Fixpoint sre_search (code : list opcode) (pos : nat) (s : str)
    : option marks :=
  match sre_match code pos s [] with
  | Some ms => Some ms
  | None =>
      match s with
      | [] => None
      | _ :: s' => sre_search code (S pos) s'
      end
  end.

(** A match object: the searched string and the marks of the match. *)
Record Match := { m_string : str; m_marks : marks }.

Definition search (code : list opcode) (string : str) : option Match :=
  match sre_search code 0%nat string with
  | Some ms => Some {| m_string := string; m_marks := ms |}
  | None => None
  end.

(** [m.group(g)] for [g >= 1]: the text between marks [2g-2] and [2g-1]. *)
Definition group (m : Match) (g : nat) : option str :=
  match mark_get (m_marks m) (2 * g - 2)%nat, mark_get (m_marks m) (2 * g - 1)%nat with
  | Some b, Some e => Some (slice (m_string m) b e)
  | _, _ => None
  end.

End sre.

Import sre.

(** The two quote characters, U+0027 and U+0022, of the class in the pattern. *)
Definition quotes : list N := [39; 34].

(** The pattern of [_parse_version] as [re.compile] compiles it: the
    literal text VERSION, [\s*], the literal [=], [\s*], one quote character,
    group 1 around one or more characters that are not quote characters,
    and one quote character. *)
Definition VERSION_RE : list opcode :=
  map LITERAL (lit "VERSION") ++
  [ REPEAT_ONE 0%nat CATEGORY_UNI_SPACE;
    LITERAL 61;
    REPEAT_ONE 0%nat CATEGORY_UNI_SPACE;
    IN (LITERALS quotes);
    MARK 0%nat;
    REPEAT_ONE 1%nat (NEGATE_LITERALS quotes);
    MARK 1%nat;
    IN (LITERALS quotes) ].

(** The instance: only [current_version] is kept. *)
Record UpdateChecker := { current_version : str }.

(** [UpdateChecker._parse_version]: the version string, or [None]. *)
Definition _parse_version (self : UpdateChecker) (content : str) : option str :=
  match search VERSION_RE content with
  | Some m => group m 1%nat
  | None => None
  end.

(** ** Exceptions, signals and the effects of [run] *)

(** The exception classes [run] can meet.  [cls_BaseException] is the root;
    [cls_KeyboardInterrupt] and [cls_SystemExit] derive from it directly and
    are not instances of [Exception]; [cls_Exception] stands for itself and
    for every subclass the [except] clauses do not name ([OSError],
    [UnicodeDecodeError], ...); [cls_URLError] (with [HTTPError]) and
    [cls_TimeoutError] derive from [Exception]. *)
Inductive exc_class :=
| cls_BaseException
| cls_KeyboardInterrupt
| cls_SystemExit
| cls_Exception
| cls_URLError
| cls_TimeoutError.

(** [issubclass c d]: the class [c] is [d] or derives from it. *)
Definition issubclass (c d : exc_class) : bool :=
  match d, c with
  | cls_BaseException, _ => true
  | cls_KeyboardInterrupt, cls_KeyboardInterrupt => true
  | cls_SystemExit, cls_SystemExit => true
  | cls_Exception, (cls_Exception | cls_URLError | cls_TimeoutError) => true
  | cls_URLError, cls_URLError => true
  | cls_TimeoutError, cls_TimeoutError => true
  | _, _ => false
  end.

(** An exception instance: its class, [str(e)] and, for a [URLError]
    (which includes [HTTPError]), the text of [e.reason]. *)
Record exception := { exc_cls : exc_class; exc_str : str; exc_reason : str }.

Definition isinstance (e : exception) (c : exc_class) : bool :=
  issubclass (exc_cls e) c.

Inductive level := INFO | WARNING | ERROR.

(** The three Qt signals of [UpdateChecker] with their arguments. *)
Inductive signal :=
| update_available (latest_version current_version : str)
| no_update (current_version : str)
| check_failed (error_message : str).

(** What [run] does to the outside: log records and emitted signals. *)
Inductive event :=
| Log (lvl : level) (msg : str)
| Emit (sg : signal).

Inductive outcome (A : Type) :=
| Returned (a : A)
| Raised (e : exception).
Arguments Returned {A} a.
Arguments Raised {A} e.

(** A computation gets the history of events so far and returns its outcome
    with the extended history. *)
Definition M (A : Type) := list event -> outcome A * list event.

Definition ret {A} (a : A) : M A := fun h => (Returned a, h).

Definition bind {A B} (m : M A) (f : A -> M B) : M B :=
  fun h =>
    match m h with
    | (Returned a, h') => f a h'
    | (Raised e, h') => (Raised e, h')
    end.

Definition raise {A} (e : exception) : M A := fun h => (Raised e, h).

Definition lift {A} (o : outcome A) : M A := fun h => (o, h).

Definition log (lvl : level) (msg : str) : M unit :=
  fun h => (Returned tt, h ++ [Log lvl msg]).

Definition emit (sg : signal) : M unit :=
  fun h => (Returned tt, h ++ [Emit sg]).

Notation "x <- m ;; k" := (bind m (fun x => k))
  (at level 61, m at next level, right associativity).
Notation "m ;; k" := (bind m (fun _ => k))
  (at level 61, right associativity).

(** The [except] clauses of a [try] statement, tried in order; an exception
    that no clause names propagates. *)
Fixpoint dispatch {A} (e : exception)
    (clauses : list (exc_class * (exception -> M A))) : M A :=
  match clauses with
  | [] => raise e
  | (c, handler) :: clauses' =>
      if isinstance e c then handler e else dispatch e clauses'
  end.

Definition try_except {A} (body : M A)
    (clauses : list (exc_class * (exception -> M A))) : M A :=
  fun h =>
    match body h with
    | (Returned a, h') => (Returned a, h')
    | (Raised e, h') => dispatch e clauses h'
    end.

(** The signals emitted in a history, in order. *)
Fixpoint signals (h : list event) : list signal :=
  match h with
  | [] => []
  | Emit sg :: h' => sg :: signals h'
  | Log _ _ :: h' => signals h'
  end.

(** ** Built-ins used by [_is_newer] *)

(** [s.split(sep)] for a one-character separator. *)
Fixpoint split (sep : N) (s : str) : list str :=
  match s with
  | [] => [[]]
  | ch :: s' =>
      if ch =? sep then [] :: split sep s'
      else match split sep s' with
           | w :: ws => (ch :: w) :: ws
           | [] => [[ch]]
           end
  end.

(** The comparison [v > w] of two lists of integers ([list_richcompare]):
    find the first index where the items differ; when there is none within
    both lists compare the sizes, otherwise compare the items there. *)
Fixpoint list_gt (v w : list Z) : bool :=
  match v, w with
  | x :: v', y :: w' => if (x =? y)%Z then list_gt v' w' else (y <? x)%Z
  | _, _ => (List.length w <? List.length v)%nat
  end.

(** [_PyLong_DigitValue] below base 10. *)
Definition digit_value (ch : N) : option N :=
  if (48 <=? ch) && (ch <=? 57) then Some (ch - 48) else None.

Fixpoint skip_space (s : str) : str :=
  match s with
  | ch :: s' => if Py_ISSPACE ch then skip_space s' else s
  | [] => []
  end.

(** The validating loop of [long_from_string_base] over digits and
    underscores, together with the value of the digits read.  The result is
    [None] at a doubled underscore, and otherwise the last character read,
    the value, the number of digits and the text left. *)
Fixpoint scan_digits (prev : N) (z : Z) (digits : N) (s : str)
    : option (N * Z * N * str) :=
  match s with
  | ch :: s' =>
      if ch =? 95 then
        if prev =? 95 then None else scan_digits ch z digits s'
      else
        match digit_value ch with
        | Some d => scan_digits ch (10 * z + Z.of_N d)%Z (digits + 1) s'
        | None => Some (prev, z, digits, s)
        end
  | [] => Some (prev, z, digits, s)
  end.

Definition _PY_LONG_MAX_STR_DIGITS_THRESHOLD : N := 640.

Section Interpreter.

(** [Py_UNICODE_TODECIMAL] on the characters outside ASCII: the decimal
    digit value, 0 to 9, that the interpreter's Unicode database gives to
    a character, if any. *)
Variable Py_UNICODE_TODECIMAL : N -> option N.

(** [sys.get_int_max_str_digits()]; 0 switches the limit off. *)
Variable max_str_digits : N.

(** The loop of [_PyUnicode_TransformDecimalAndSpaceToASCII]: it stops
    behind the first character that is neither ASCII, a space nor a
    decimal digit, which it replaces by a question mark. *)
Fixpoint transform (u : str) : str :=
  match u with
  | [] => []
  | ch :: u' =>
      if ch <? 127 then ch :: transform u'
      else if Py_UNICODE_ISSPACE ch then 32 :: transform u'
      else match Py_UNICODE_TODECIMAL ch with
           | Some decimal => (48 + decimal) :: transform u'
           | None => [63]
           end
  end.

Definition _PyUnicode_TransformDecimalAndSpaceToASCII (u : str) : str :=
  if forallb (fun ch => ch <? 128) u then u else transform u.

(** [PyLong_FromString] in base 10 on the whole buffer; [None] is the
    [ValueError].  A NUL character ends the C string early, which
    [PyLong_FromUnicodeObject] then rejects: like every other character that
    may not follow the digits, it is left over here. *)
Definition PyLong_FromString (s : str) : option Z :=
  let s := skip_space s in
  let '(sign, s) :=
    match s with
    | ch :: s' =>
        if ch =? 43 then (1%Z, s')
        else if ch =? 45 then ((-1)%Z, s')
        else (1%Z, s)
    | [] => (1%Z, s)
    end in
  if match s with ch :: _ => ch =? 95 | [] => false end then None
  else
    match scan_digits 0 0%Z 0 s with
    | None => None
    | Some (prev, z, digits, rest) =>
        if prev =? 95 then None
        else if Nat.eqb (List.length rest) (List.length s) then None
        else
          match skip_space rest with
          | _ :: _ => None
          | [] =>
              if (_PY_LONG_MAX_STR_DIGITS_THRESHOLD <? digits)
                 && (0 <? max_str_digits) && (max_str_digits <? digits)
              then None
              else Some (sign * z)%Z
          end
    end.

(** [int(x)] for a [str] argument. *)
Definition int (x : str) : option Z :=
  PyLong_FromString (_PyUnicode_TransformDecimalAndSpaceToASCII x).

(** The comprehension [[int(x) for x in xs]]: the first [ValueError] ends it. *)
Fixpoint int_each (xs : list str) : option (list Z) :=
  match xs with
  | [] => Some []
  | x :: xs' =>
      match int x with
      | None => None
      | Some n =>
          match int_each xs' with
          | None => None
          | Some ns => Some (n :: ns)
          end
      end
  end.

(** [[int(x) for x in v.split('.')]]. *)
Definition parts (v : str) : option (list Z) := int_each (split 46 v).

(** ** [UpdateChecker._is_newer] *)

(** The [try] block computes both lists and compares them; [int] can only
    raise [ValueError], which the [except] clause turns into a warning and
    [False]. *)
Definition _is_newer (self : UpdateChecker) (latest current : str) : M bool :=
  let except_ValueError :=
    log WARNING (lit "Could not parse versions: " ++ latest
                 ++ lit " vs " ++ current) ;;
    ret false in
  match parts latest with
  | None => except_ValueError
  | Some latest_parts =>
      match parts current with
      | None => except_ValueError
      | Some current_parts => ret (list_gt latest_parts current_parts)
      end
  end.

(** The outcome of [_is_newer]: its value and the records it logs. *)
Definition newer_value (latest current : str) : bool :=
  match parts latest, parts current with
  | Some latest_parts, Some current_parts => list_gt latest_parts current_parts
  | _, _ => false
  end.

Definition newer_events (latest current : str) : list event :=
  match parts latest, parts current with
  | Some _, Some _ => []
  | _, _ => [Log WARNING (lit "Could not parse versions: " ++ latest
                          ++ lit " vs " ++ current)]
  end.

(** ** [UpdateChecker.run] *)

Definition VERSION_URL : str :=
  lit "https://raw.githubusercontent.com/AndyCappDev/tourboxelite/master/tourboxelite/__init__.py".

Definition REQUEST_TIMEOUT : N := 5.

Record Request := { full_url : str; headers : list (str * str) }.

(** The network as [run] sees it: what opening the request with a timeout,
    reading the response and decoding it as UTF-8 comes to, the text or an
    exception. *)
Variable urlopen_read_decode : Request -> N -> outcome str.

Definition run (self : UpdateChecker) : M unit :=
  try_except
    (log INFO (lit "Checking for updates (current version: "
               ++ current_version self ++ lit ")") ;;
     let request :=
       {| full_url := VERSION_URL;
          headers := [(lit "User-Agent",
                       lit "TourBoxElite/" ++ current_version self)] |} in
     content <- lift (urlopen_read_decode request REQUEST_TIMEOUT) ;;
     match _parse_version self content with
     | None | Some [] =>
         emit (check_failed (lit "Could not parse version from GitHub"))
     | Some latest_version =>
         log INFO (lit "Latest version on GitHub: " ++ latest_version) ;;
         newer <- _is_newer self latest_version (current_version self) ;;
         if newer : bool then
           log INFO (lit "Update available: " ++ latest_version) ;;
           emit (update_available latest_version (current_version self))
         else
           log INFO (lit "Already running latest version") ;;
           emit (no_update (current_version self))
     end)
    [ (cls_URLError, fun e =>
         let error_msg := lit "Network error: " ++ exc_reason e in
         log ERROR error_msg ;;
         emit (check_failed error_msg));
      (cls_TimeoutError, fun e =>
         let error_msg := lit "Request timed out" in
         log ERROR error_msg ;;
         emit (check_failed error_msg));
      (cls_Exception, fun e =>
         let error_msg := lit "Error checking for updates: " ++ exc_str e in
         log ERROR error_msg ;;
         emit (check_failed error_msg)) ].

End Interpreter.

(** The table of decimal digits of Unicode 14.0 outside ASCII (the database
    of CPython 3.11): every run of ten digits by its first code point. *)
Definition decimal_runs : list N :=
  [1632; 1776; 1984; 2406; 2534; 2662; 2790; 2918; 3046; 3174; 3302; 3430;
   3558; 3664; 3792; 3872; 4160; 4240; 6112; 6160; 6470; 6608; 6784; 6800;
   6992; 7088; 7232; 7248; 42528; 43216; 43264; 43472; 43504; 43600; 44016;
   65296; 66720; 68912; 69734; 69872; 69942; 70096; 70384; 70736; 70864;
   71248; 71360; 71472; 71904; 72016; 72784; 73040; 73120; 92768; 92864;
   93008; 120782; 120792; 120802; 120812; 120822; 123200; 123632; 125264;
   130032].

Definition unicode_14_decimal (ch : N) : option N :=
  match find (fun first => (first <=? ch) && (ch <? first + 10)) decimal_runs with
  | Some first => Some (ch - first)
  | None => None
  end.

(** The default of [sys.get_int_max_str_digits()]. *)
Definition default_max_str_digits : N := 4300.

(** ** What the specification says, in its own words *)

Definition is_space (ch : N) : Prop := Py_UNICODE_ISSPACE ch = true.

(** A quote character, single or double. *)
Definition is_quote (ch : N) : Prop := ch = 39 \/ ch = 34.

(** [token t value]: the text [t] has the form VERSION = Q value Q', with
    any whitespace around the equals sign, either quote character on each
    side, and a value of one or more characters that are not quotes. *)
Inductive token : str -> str -> Prop :=
| token_intro (ws1 ws2 : str) (q1 q2 : N) (value : str) :
    Forall is_space ws1 -> Forall is_space ws2 ->
    is_quote q1 -> is_quote q2 ->
    value <> [] -> Forall (fun ch => ~ is_quote ch) value ->
    token (lit "VERSION" ++ ws1 ++ [61] ++ ws2 ++ [q1] ++ value ++ [q2]) value.

(** The token occurs in [body] at index [i] with the given value. *)
Definition occurs_at (body : str) (i : nat) (value : str) : Prop :=
  exists pre t post,
    body = pre ++ t ++ post /\ List.length pre = i /\ token t value.

(** The lexicographic order on tuples of integers: [a] is below [b] when
    [a] is a strict prefix of [b], or when at the first component where
    they differ the one of [a] is the smaller. *)
Definition lex_lt (a b : list Z) : Prop :=
  (exists c, c <> [] /\ b = a ++ c)
  \/ (exists p x y a' b', a = p ++ x :: a' /\ b = p ++ y :: b' /\ (x < y)%Z).

(** [version_tuple version tuple]: splitting the string at the dots and
    parsing each segment as an integer succeeds and gives the tuple. *)
Definition version_tuple (td : N -> option N) (msd : N)
    (version : str) (tuple : list Z) : Prop :=
  Forall2 (fun segment z => int td msd segment = Some z) (split 46 version) tuple.

(** Some segment of the string does not parse as an integer. *)
Definition unparsable (td : N -> option N) (msd : N) (version : str) : Prop :=
  exists segment, In segment (split 46 version) /\ int td msd segment = None.

(** The request [run] sends. *)
Definition sent_request (self : UpdateChecker) : Request :=
  {| full_url := VERSION_URL;
     headers := [(lit "User-Agent", lit "TourBoxElite/" ++ current_version self)] |}.

(** The first log record of [run]. *)
Definition log_checking (self : UpdateChecker) : event :=
  Log INFO (lit "Checking for updates (current version: "
            ++ current_version self ++ lit ")").

(** The message [run] reports for an exception, clause by clause. *)
Definition failure_message (e : exception) : str :=
  if isinstance e cls_URLError then lit "Network error: " ++ exc_reason e
  else if isinstance e cls_TimeoutError then lit "Request timed out"
  else lit "Error checking for updates: " ++ exc_str e.

(** ** Auxiliary definitions *)

Fixpoint take_while (p : N -> bool) (s : str) : str :=
  match s with
  | ch :: s' => if p ch then ch :: take_while p s' else []
  | [] => []
  end.

Fixpoint drop_while (p : N -> bool) (s : str) : str :=
  match s with
  | ch :: s' => if p ch then drop_while p s' else s
  | [] => []
  end.

Fixpoint strip_prefix (l s : str) : option str :=
  match l, s with
  | [], _ => Some s
  | c :: l', ch :: s' => if ch =? c then strip_prefix l' s' else None
  | _ :: _, [] => None
  end.

Definition SP : N -> bool := charset_match CATEGORY_UNI_SPACE.
Definition NQ : N -> bool := charset_match (NEGATE_LITERALS quotes).

(** A decision procedure for the absence of a match before an index. *)
Definition no_match_before (content : str) (n : nat) : bool :=
  forallb (fun j => match sre_match VERSION_RE j (skipn j content) [] with
                    | None => true
                    | Some _ => false
                    end) (seq 0 n).

Definition count_quotes (s : str) : nat :=
  List.length (filter (fun ch => mem ch quotes) s).

(** ** Instances for the examples *)

(** An installed instance, and networks with a fixed behaviour. *)
Definition installed_2_1_0 : UpdateChecker := {| current_version := lit "2.1.0" |}.

Definition responds (content : str) : Request -> N -> outcome str :=
  fun _ _ => Returned content.

Definition fails_with (e : exception) : Request -> N -> outcome str :=
  fun _ _ => Raised e.

Definition connection_refused : exception :=
  {| exc_cls := cls_URLError;
     exc_str := lit "<urlopen error [Errno 111] Connection refused>";
     exc_reason := lit "[Errno 111] Connection refused" |}.

(** An interrupt of the thread that calls [run] while the fetch waits. *)
Definition keyboard_interrupt : exception :=
  {| exc_cls := cls_KeyboardInterrupt; exc_str := []; exc_reason := [] |}.

(** A file that assigns VERSION with double quotes. *)
Definition init_py (version : str) : str :=
  lit "VERSION = " ++ [34] ++ version ++ [34].

(** ** Further definitions *)

(** [UpdateChecker.__init__]: the instance keeps the VERSION of the
    installed package as its current version. *)
Definition __init__ (VERSION : str) : UpdateChecker :=
  {| current_version := VERSION |}.

(** The message of [run] for a content without version. *)
Definition parse_failure_message : str :=
  lit "Could not parse version from GitHub".


(** An ASCII character, U+0000 to U+007F, that no text accepted by [int]
    holds: neither a digit, a C-locale space, a sign nor an underscore. *)
Definition not_in_int_literal (ch : N) : bool :=
  (ch <=? 127) && negb (Py_ISSPACE ch)
  && match digit_value ch with Some _ => false | None => true end
  && negb (ch =? 43) && negb (ch =? 45) && negb (ch =? 95).

(** An ASCII digit. *)
Definition is_ascii_digit (ch : N) : bool := (48 <=? ch) && (ch <=? 57).

(** An ASCII letter. *)
Definition is_ascii_letter (ch : N) : bool :=
  ((65 <=? ch) && (ch <=? 90)) || ((97 <=? ch) && (ch <=? 122)).

(** [_is_newer latest current] returns this boolean, whatever the instance
    and the history. *)
Definition is_newer_returns (td : N -> option N) (msd : N)
    (latest current : str) (b : bool) : Prop :=
  forall self h, fst (_is_newer td msd self latest current h) = Returned b.

(** * Examples

    The model evaluated where CPython's behaviour is known. *)

Example int_plain :
  int unicode_14_decimal default_max_str_digits (lit "10") = Some 10%Z.
Proof. reflexivity. Qed.

Example int_sign_and_spaces :
  int unicode_14_decimal default_max_str_digits (lit " -7 ") = Some (-7)%Z.
Proof. reflexivity. Qed.

Example int_underscores :
  int unicode_14_decimal default_max_str_digits (lit "1_000") = Some 1000%Z
  /\ int unicode_14_decimal default_max_str_digits (lit "_1") = None
  /\ int unicode_14_decimal default_max_str_digits (lit "1__0") = None
  /\ int unicode_14_decimal default_max_str_digits (lit "1_") = None.
Proof. repeat split; reflexivity. Qed.

Example int_rejects :
  int unicode_14_decimal default_max_str_digits [] = None
  /\ int unicode_14_decimal default_max_str_digits (lit "-") = None
  /\ int unicode_14_decimal default_max_str_digits (lit "abc") = None
  /\ int unicode_14_decimal default_max_str_digits (lit "1 2") = None
  /\ int unicode_14_decimal default_max_str_digits (lit "0x10") = None.
Proof. repeat split; reflexivity. Qed.

(** An ARABIC-INDIC DIGIT THREE is a digit and a NO-BREAK SPACE is a space
    for [int]; U+001C is a space for [str.isspace] but not for [int]. *)
Example int_unicode :
  int unicode_14_decimal default_max_str_digits [1635] = Some 3%Z
  /\ int unicode_14_decimal default_max_str_digits [160; 49] = Some 1%Z
  /\ int unicode_14_decimal default_max_str_digits [28; 49] = None.
Proof. repeat split; reflexivity. Qed.

(** The limit on the number of digits. *)
Example int_digit_limit :
  int unicode_14_decimal default_max_str_digits (repeat 49 4301) = None
  /\ int unicode_14_decimal default_max_str_digits (repeat 49 4300) <> None
  /\ int unicode_14_decimal 0 (repeat 49 4301) <> None.
Proof. repeat split; vm_compute; congruence. Qed.

Example split_dots :
  split 46 (lit "1..2") = [lit "1"; []; lit "2"] /\ split 46 [] = [[]].
Proof. split; reflexivity. Qed.

Example list_gt_examples :
  list_gt [2; 10; 0]%Z [2; 9; 9]%Z = true
  /\ list_gt [1; 0]%Z [1]%Z = true
  /\ list_gt [1]%Z [1; 0]%Z = false
  /\ list_gt [2; 1; 0]%Z [2; 1; 0]%Z = false.
Proof. repeat split; reflexivity. Qed.

Example parse_version_examples :
  _parse_version installed_2_1_0 (init_py (lit "3.0.0")) = Some (lit "3.0.0")
  /\ _parse_version installed_2_1_0 (lit "VERSION='3.0.0'") = Some (lit "3.0.0")
  /\ _parse_version installed_2_1_0 (lit "__version__ = '3.0.0'") = None.
Proof. repeat split; reflexivity. Qed.

(** A whole run: the log records and the one signal. *)
Example run_update_available :
  run unicode_14_decimal default_max_str_digits
      (responds (init_py (lit "2.2.0"))) installed_2_1_0 []
  = (Returned tt,
     [Log INFO (lit "Checking for updates (current version: 2.1.0)");
      Log INFO (lit "Latest version on GitHub: 2.2.0");
      Log INFO (lit "Update available: 2.2.0");
      Emit (update_available (lit "2.2.0") (lit "2.1.0"))]).
Proof. reflexivity. Qed.

(** * Lemmas *)

Ltac solve_len :=
  repeat (rewrite ?length_app; simpl List.length); lia.

Ltac leb_zero :=
  match goal with
  | |- context [(0 <=? ?n)%nat] => change (0 <=? n)%nat with true; cbv iota
  end.

(** ** Lemmas on the matcher *)

Lemma take_drop_while : forall p s, s = take_while p s ++ drop_while p s.
Proof.
  intros p s; induction s as [|ch s IH]; simpl; [reflexivity|].
  destruct (p ch); simpl; [f_equal; exact IH | reflexivity].
Qed.

Lemma take_while_all : forall p s, Forall (fun ch => p ch = true) (take_while p s).
Proof.
  intros p s; induction s as [|ch s IH]; simpl; [constructor|].
  destruct (p ch) eqn:E; [constructor; assumption | constructor].
Qed.

Lemma drop_while_head : forall p s ch t, drop_while p s = ch :: t -> p ch = false.
Proof.
  intros p s; induction s as [|c s IH]; simpl; intros ch t H; [discriminate|].
  destruct (p c) eqn:E; [eauto | congruence].
Qed.

(** A run of characters of [p] that ends at a character outside [p], or at
    the end of the text, is what [take_while] takes. *)
Lemma take_while_stop : forall p u rest,
  Forall (fun ch => p ch = true) u ->
  (forall ch t, rest = ch :: t -> p ch = false) ->
  take_while p (u ++ rest) = u /\ drop_while p (u ++ rest) = rest.
Proof.
  intros p u rest Hu Hr; induction Hu as [|c u Hc _ IH]; simpl.
  - destruct rest as [|ch t]; simpl; [auto|].
    rewrite (Hr ch t eq_refl); auto.
  - rewrite Hc; destruct IH as [-> ->]; auto.
Qed.

Lemma strip_prefix_app : forall l s s',
  strip_prefix l s = Some s' <-> s = l ++ s'.
Proof.
  induction l as [|c l IH]; simpl; intros s s'.
  - split; congruence.
  - destruct s as [|ch s]; [split; discriminate|].
    destruct (N.eqb_spec ch c) as [->|Hne].
    + rewrite IH; split; congruence.
    + split; [discriminate | congruence].
Qed.

(** When the rest of the pattern cannot start with a character of [set],
    the greedy repetition has one candidate only: the longest run. *)
Lemma repeat_one_longest : forall k set,
  (forall pos ch t ms, charset_match set ch = true -> k pos (ch :: t) ms = None) ->
  forall s mn pos ms,
    repeat_one k set mn pos s ms =
    if (mn <=? List.length (take_while (charset_match set) s))%nat
    then k (pos + List.length (take_while (charset_match set) s))%nat
           (drop_while (charset_match set) s) ms
    else None.
Proof.
  intros k set Hk s; induction s as [|ch s IH]; intros mn pos ms; simpl.
  - destruct mn; simpl; [rewrite Nat.add_0_r; reflexivity | reflexivity].
  - destruct (charset_match set ch) eqn:E; simpl.
    + rewrite IH.
      replace (pos + S (List.length (take_while (charset_match set) s)))%nat
        with (S pos + List.length (take_while (charset_match set) s))%nat by lia.
      destruct mn as [|mn]; simpl.
      * destruct (k _ _ ms); [reflexivity|].
        apply Hk; exact E.
      * destruct (mn <=? _)%nat; [|reflexivity].
        destruct (k _ _ ms); reflexivity.
    + destruct mn; simpl; [rewrite Nat.add_0_r; reflexivity | reflexivity].
Qed.

Lemma sre_match_literals : forall l code pos s ms,
  sre_match (map LITERAL l ++ code) pos s ms =
  match strip_prefix l s with
  | Some s' => sre_match code (pos + List.length l)%nat s' ms
  | None => None
  end.
Proof.
  induction l as [|c l IH]; intros code pos s ms; simpl.
  - rewrite Nat.add_0_r; reflexivity.
  - destruct s as [|ch s]; [reflexivity|].
    destruct (ch =? c); [|reflexivity].
    rewrite IH. replace (S pos + List.length l)%nat with (pos + S (List.length l))%nat by lia.
    reflexivity.
Qed.

Lemma space_not_equals : forall ch, SP ch = true -> (ch =? 61) = false.
Proof.
  intros ch H; destruct (N.eqb_spec ch 61) as [->|]; [discriminate H | reflexivity].
Qed.

Lemma space_not_quote : forall ch, SP ch = true -> mem ch quotes = false.
Proof.
  intros ch H; unfold mem, quotes; simpl.
  destruct (N.eqb_spec ch 39) as [->|]; [discriminate H|].
  destruct (N.eqb_spec ch 34) as [->|]; [discriminate H | reflexivity].
Qed.

Lemma mem_quotes : forall ch, mem ch quotes = true <-> is_quote ch.
Proof.
  intros ch; unfold mem, quotes, is_quote; simpl.
  rewrite !orb_true_iff, !N.eqb_eq; intuition discriminate.
Qed.

Lemma NQ_not_quote : forall ch, NQ ch = true <-> ~ is_quote ch.
Proof.
  intros ch; unfold NQ; cbn [charset_match]; rewrite <- mem_quotes.
  destruct (mem ch quotes); simpl; intuition congruence.
Qed.

Lemma marks_eq : forall (b b' e e' : nat) (ms : marks),
  b = b' -> e = e' ->
  ((1, e) :: (0, b) :: ms)%nat = ((1, e') :: (0, b') :: ms)%nat.
Proof. intros; subst; reflexivity. Qed.

(** The match of the pattern at the start of [s], computed: the matcher has
    no choice to make. *)
Lemma sre_match_VERSION_RE : forall pos s ms,
  sre_match VERSION_RE pos s ms =
  match strip_prefix (lit "VERSION") s with
  | None => None
  | Some s1 =>
      match drop_while SP s1 with
      | [] => None
      | ch :: s3 =>
          if ch =? 61 then
            match drop_while SP s3 with
            | [] => None
            | q1 :: s5 =>
                if mem q1 quotes then
                  if (1 <=? List.length (take_while NQ s5))%nat then
                    match drop_while NQ s5 with
                    | [] => None
                    | q2 :: _ =>
                        let b := (pos + 7 + List.length (take_while SP s1) + 1
                                  + List.length (take_while SP s3) + 1)%nat in
                        if mem q2 quotes
                        then Some ((1, b + List.length (take_while NQ s5))
                                   :: (0, b) :: ms)%nat
                        else None
                    end
                  else None
                else None
            end
          else None
      end
  end.
Proof.
  intros pos s ms. unfold VERSION_RE. rewrite sre_match_literals.
  destruct (strip_prefix (lit "VERSION") s) as [s1|]; [|reflexivity].
  cbn [sre_match].
  rewrite repeat_one_longest
    by (intros p ch t m H; cbn [sre_match]; rewrite (space_not_equals ch H); reflexivity).
  fold SP. leb_zero.
  destruct (drop_while SP s1) as [|ch s3]; [reflexivity|].
  destruct (ch =? 61); [|reflexivity].
  rewrite repeat_one_longest
    by (intros p c t m H; cbn [sre_match charset_match];
        rewrite (space_not_quote c H); reflexivity).
  fold SP. leb_zero.
  destruct (drop_while SP s3) as [|q1 s5]; [reflexivity|].
  cbn [charset_match]. destruct (mem q1 quotes); [|reflexivity].
  rewrite repeat_one_longest.
  2:{ intros p c t m H; cbn [sre_match charset_match].
      apply NQ_not_quote in H. rewrite <- mem_quotes in H.
      destruct (mem c quotes); [congruence | reflexivity]. }
  fold NQ.
  destruct (1 <=? List.length (take_while NQ s5))%nat; [|reflexivity].
  cbn [sre_match].
  destruct (drop_while NQ s5) as [|q2 rest]; [reflexivity|].
  cbn [charset_match]. destruct (mem q2 quotes); [|reflexivity].
  f_equal; apply marks_eq; solve_len.
Qed.

Lemma strip_prefix_self : forall l s, strip_prefix l (l ++ s) = Some s.
Proof. intros l s; apply strip_prefix_app; reflexivity. Qed.

Lemma Forall_NQ : forall v,
  Forall (fun ch => ~ is_quote ch) v <-> Forall (fun ch => NQ ch = true) v.
Proof.
  intros v; split; intros H; induction H; constructor; auto;
    apply NQ_not_quote; assumption.
Qed.

(** Completeness: where a token stands, the pattern matches and the marks of
    group 1 enclose the value. *)
Lemma sre_match_token : forall t value,
  token t value ->
  exists hd q2,
    t = hd ++ value ++ [q2] /\
    forall pos post ms,
      sre_match VERSION_RE pos (t ++ post) ms =
      Some ((1, pos + List.length hd + List.length value)
            :: (0, pos + List.length hd) :: ms)%nat.
Proof.
  intros t value H.
  destruct H as [ws1 ws2 q1 q2 value Hw1 Hw2 Hq1 Hq2 Hne Hv].
  exists (lit "VERSION" ++ ws1 ++ [61] ++ ws2 ++ [q1]), q2.
  split; [repeat rewrite <- app_assoc; reflexivity|].
  intros pos post ms.
  rewrite sre_match_VERSION_RE.
  repeat rewrite <- app_assoc. rewrite strip_prefix_self.
  destruct (take_while_stop SP ws1 ([61] ++ ws2 ++ [q1] ++ value ++ [q2] ++ post))
    as [T1 D1]; [exact Hw1 | intros ch t E; injection E as <- _; reflexivity |].
  rewrite T1, D1. cbn [app]. rewrite N.eqb_refl.
  assert (Q1 : mem q1 quotes = true) by (apply mem_quotes; exact Hq1).
  assert (Q2 : mem q2 quotes = true) by (apply mem_quotes; exact Hq2).
  destruct (take_while_stop SP ws2 (q1 :: value ++ q2 :: post))
    as [T2 D2]; [exact Hw2 | intros ch t E; injection E as <- _ | ].
  { destruct (SP q1) eqn:S1; [|reflexivity].
    rewrite (space_not_quote q1 S1) in Q1; discriminate. }
  rewrite T2, D2, Q1.
  destruct (take_while_stop NQ value (q2 :: post))
    as [T3 D3]; [apply Forall_NQ; exact Hv | intros ch t E; injection E as <- _ | ].
  { unfold NQ; cbn [charset_match]; rewrite Q2; reflexivity. }
  rewrite T3, D3, Q2.
  destruct value as [|c value]; [congruence|].
  cbn [List.length Nat.leb].
  f_equal; apply marks_eq; solve_len.
Qed.

(** Soundness: where the pattern matches, a token stands. *)
Lemma sre_match_inv : forall pos s ms ms',
  sre_match VERSION_RE pos s ms = Some ms' ->
  exists hd value q2 post,
    s = (hd ++ value ++ [q2]) ++ post /\
    token (hd ++ value ++ [q2]) value /\
    ms' = ((1, pos + List.length hd + List.length value)
           :: (0, pos + List.length hd) :: ms)%nat.
Proof.
  intros pos s ms ms' H. rewrite sre_match_VERSION_RE in H.
  destruct (strip_prefix (lit "VERSION") s) as [s1|] eqn:E0; [|discriminate].
  apply strip_prefix_app in E0.
  destruct (drop_while SP s1) as [|ch s3] eqn:E1; [discriminate|].
  destruct (N.eqb_spec ch 61) as [->|]; [|discriminate].
  destruct (drop_while SP s3) as [|q1 s5] eqn:E2; [discriminate|].
  destruct (mem q1 quotes) eqn:Q1; [|discriminate].
  destruct (1 <=? List.length (take_while NQ s5))%nat eqn:L; [|discriminate].
  destruct (drop_while NQ s5) as [|q2 post] eqn:E3; [discriminate|].
  destruct (mem q2 quotes) eqn:Q2; [|discriminate].
  injection H as <-.
  set (ws1 := take_while SP s1) in *. set (ws2 := take_while SP s3) in *.
  set (value := take_while NQ s5) in *.
  exists (lit "VERSION" ++ ws1 ++ [61] ++ ws2 ++ [q1]), value, q2, post.
  assert (Hs : s = ((lit "VERSION" ++ ws1 ++ [61] ++ ws2 ++ [q1]) ++ value ++ [q2]) ++ post).
  { rewrite E0, (take_drop_while SP s1), E1. fold ws1.
    rewrite (take_drop_while SP s3), E2. fold ws2.
    rewrite (take_drop_while NQ s5), E3. fold value.
    repeat rewrite <- app_assoc. reflexivity. }
  split; [exact Hs|]. split.
  - replace ((lit "VERSION" ++ ws1 ++ [61] ++ ws2 ++ [q1]) ++ value ++ [q2])
      with (lit "VERSION" ++ ws1 ++ [61] ++ ws2 ++ [q1] ++ value ++ [q2])
      by (repeat rewrite <- app_assoc; reflexivity).
    constructor.
    + apply take_while_all.
    + apply take_while_all.
    + apply mem_quotes; exact Q1.
    + apply mem_quotes; exact Q2.
    + intros Hv; rewrite Hv in L; discriminate.
    + apply Forall_NQ, take_while_all.
  - apply marks_eq; solve_len.
Qed.

(** The search returns the match at the leftmost position that has one. *)
Lemma sre_search_leftmost : forall code s pos ms,
  sre_search code pos s = Some ms <->
  exists i, (i <= List.length s)%nat /\
    sre_match code (pos + i) (skipn i s) [] = Some ms /\
    forall j, (j < i)%nat -> sre_match code (pos + j) (skipn j s) [] = None.
Proof.
  intros code s; induction s as [|c s IH]; intros pos ms.
  - cbn [sre_search]. split.
    + intros H. exists 0%nat. rewrite Nat.add_0_r. cbn [skipn].
      destruct (sre_match code pos [] []); [|discriminate].
      repeat split; [auto | assumption | intros j Hj; lia].
    + intros (i & Hi & Hm & _). cbn [List.length] in Hi.
      assert (i = 0%nat) by lia. subst i.
      rewrite Nat.add_0_r in Hm. cbn [skipn] in Hm. rewrite Hm. reflexivity.
  - cbn [sre_search].
    destruct (sre_match code pos (c :: s) []) as [m0|] eqn:E0.
    + split.
      * intros H. exists 0%nat. rewrite Nat.add_0_r. cbn [skipn].
        repeat split; [lia | congruence | intros j Hj; lia].
      * intros (i & Hi & Hm & Hlt). destruct i as [|i].
        -- rewrite Nat.add_0_r in Hm. cbn [skipn] in Hm. congruence.
        -- specialize (Hlt 0%nat ltac:(lia)).
           rewrite Nat.add_0_r in Hlt. cbn [skipn] in Hlt. congruence.
    + rewrite IH. split.
      * intros (i & Hi & Hm & Hlt). exists (S i). cbn [List.length skipn].
        repeat split; [lia | rewrite <- Nat.add_succ_comm; exact Hm |].
        intros [|j] Hj.
        -- rewrite Nat.add_0_r. exact E0.
        -- cbn [skipn]. rewrite <- Nat.add_succ_comm. apply Hlt. lia.
      * intros (i & Hi & Hm & Hlt). destruct i as [|i].
        -- rewrite Nat.add_0_r in Hm. cbn [skipn] in Hm. congruence.
        -- exists i. cbn [List.length skipn] in *.
           repeat split; [lia | rewrite Nat.add_succ_comm; exact Hm |].
           intros j Hj. specialize (Hlt (S j) ltac:(lia)).
           cbn [skipn] in Hlt. rewrite Nat.add_succ_comm. exact Hlt.
Qed.

Lemma slice_middle : forall (pre hd value rest : str),
  slice (pre ++ hd ++ value ++ rest)
        (List.length pre + List.length hd)
        (List.length pre + List.length hd + List.length value) = value.
Proof.
  intros pre hd value rest. unfold slice.
  replace (List.length pre + List.length hd + List.length value
           - (List.length pre + List.length hd))%nat
    with (List.length value) by lia.
  rewrite app_assoc.
  replace (List.length pre + List.length hd)%nat
    with (List.length (pre ++ hd) + 0)%nat by (rewrite length_app; lia).
  rewrite skipn_app, skipn_all2 by lia.
  replace (List.length (pre ++ hd) + 0 - List.length (pre ++ hd))%nat with 0%nat by lia.
  cbn [skipn app].
  rewrite firstn_app, firstn_all, Nat.sub_diag. cbn [firstn]. apply app_nil_r.
Qed.

Lemma group_1 : forall content b e ms,
  group {| m_string := content; m_marks := ((1, e) :: (0, b) :: ms)%nat |} 1
  = Some (slice content b e).
Proof. reflexivity. Qed.

(** A token occurs at index [i] exactly when the pattern matches there, and
    the value of the token is group 1 of that match. *)
Lemma occurs_at_match : forall content i value,
  occurs_at content i value <->
  (i <= List.length content)%nat /\
  exists ms,
    sre_match VERSION_RE i (skipn i content) [] = Some ms /\
    group {| m_string := content; m_marks := ms |} 1 = Some value.
Proof.
  intros content i value; split.
  - intros (pre & t & post & -> & <- & Ht).
    destruct (sre_match_token _ _ Ht) as (hd & q2 & -> & Hm).
    split; [rewrite length_app; lia|].
    rewrite skipn_app, skipn_all, Nat.sub_diag. cbn [skipn app].
    rewrite Hm. eexists; split; [reflexivity|].
    rewrite group_1. f_equal.
    repeat rewrite <- app_assoc. apply slice_middle.
  - intros (Hi & ms & Hm & Hg).
    apply sre_match_inv in Hm.
    destruct Hm as (hd & v & q2 & post & Hs & Ht & ->).
    rewrite group_1 in Hg. injection Hg as Hg. subst value.
    assert (Hc : content = firstn i content ++ (hd ++ v ++ [q2]) ++ post)
      by (rewrite <- Hs; symmetry; apply firstn_skipn).
    assert (Hl : List.length (firstn i content) = i)
      by (apply firstn_length_le; exact Hi).
    remember (firstn i content) as pre eqn:Hpre. clear Hpre Hs Hi.
    subst i content.
    replace (slice _ _ _) with v
      by (repeat rewrite <- app_assoc; symmetry; apply slice_middle).
    exists pre, (hd ++ v ++ [q2]), post. auto.
Qed.

Lemma sre_search_None : forall code s pos,
  sre_search code pos s = None ->
  forall i, (i <= List.length s)%nat ->
    sre_match code (pos + i) (skipn i s) [] = None.
Proof.
  intros code s; induction s as [|c s IH]; intros pos H i Hi; cbn [sre_search] in H.
  - cbn [List.length] in Hi. assert (i = 0%nat) by lia. subst i.
    rewrite Nat.add_0_r. cbn [skipn].
    destruct (sre_match code pos [] []); [discriminate | reflexivity].
  - destruct (sre_match code pos (c :: s) []) eqn:E; [discriminate|].
    destruct i as [|i].
    + rewrite Nat.add_0_r. exact E.
    + cbn [skipn]. rewrite <- Nat.add_succ_comm. apply IH; [exact H|].
      cbn [List.length] in Hi. lia.
Qed.

(** [_parse_version] returns a value exactly when it is the value of the
    leftmost token of the content. *)
Lemma parse_version_leftmost : forall self content value,
  _parse_version self content = Some value <->
  exists i,
    occurs_at content i value /\
    forall j value', (j < i)%nat -> ~ occurs_at content j value'.
Proof.
  intros self content value. unfold _parse_version, search.
  split.
  - destruct (sre_search VERSION_RE 0 content) as [ms|] eqn:E; [|discriminate].
    intros Hg. apply sre_search_leftmost in E.
    destruct E as (i & Hi & Hm & Hlt). cbn [Nat.add] in Hm, Hlt.
    exists i. split.
    + apply occurs_at_match. eauto.
    + intros j v' Hj Ho. apply occurs_at_match in Ho.
      destruct Ho as (_ & ms' & Hm' & _).
      rewrite (Hlt j Hj) in Hm'. discriminate.
  - intros (i & Ho & Hlt). apply occurs_at_match in Ho.
    destruct Ho as (Hi & ms & Hm & Hg).
    assert (E : sre_search VERSION_RE 0 content = Some ms).
    { apply sre_search_leftmost. exists i. cbn [Nat.add].
      repeat split; [exact Hi | exact Hm |].
      intros j Hj.
      destruct (sre_match VERSION_RE j (skipn j content) []) as [ms'|] eqn:E';
        [|reflexivity].
      exfalso.
      destruct (sre_match_inv _ _ _ _ E') as (hd & v & q2 & post & Hs & Ht & ->).
      apply (Hlt j (slice content (j + List.length hd)
                      (j + List.length hd + List.length v)) Hj).
      apply occurs_at_match. split; [lia|].
      eexists; split; [exact E' | apply group_1]. }
    rewrite E. exact Hg.
Qed.

Lemma parse_version_None : forall self content,
  _parse_version self content = None <->
  forall i value, ~ occurs_at content i value.
Proof.
  intros self content. split.
  - unfold _parse_version, search.
    destruct (sre_search VERSION_RE 0 content) as [ms|] eqn:E.
    + apply sre_search_leftmost in E.
      destruct E as (i & Hi & Hm & _). cbn [Nat.add] in Hm.
      destruct (sre_match_inv _ _ _ _ Hm) as (hd & v & q2 & post & _ & _ & ->).
      rewrite group_1. discriminate.
    + intros _ i value Ho. apply occurs_at_match in Ho.
      destruct Ho as (Hi & ms & Hm & _).
      pose proof (sre_search_None _ _ _ E i Hi) as Hn. cbn [Nat.add] in Hn.
      congruence.
  - intros H. destruct (_parse_version self content) as [v|] eqn:E; [|reflexivity].
    apply parse_version_leftmost in E. destruct E as (i & Ho & _).
    exfalso; eapply H; eauto.
Qed.

Lemma no_match_before_sound : forall content n,
  no_match_before content n = true ->
  forall j value, (j < n)%nat -> ~ occurs_at content j value.
Proof.
  intros content n H j value Hj Ho. unfold no_match_before in H.
  rewrite forallb_forall in H. specialize (H j).
  apply occurs_at_match in Ho. destruct Ho as (_ & ms & Hm & _).
  rewrite Hm in H. discriminate H. apply in_seq. lia.
Qed.

(** *** Text after the first token does not matter *)

Lemma count_quotes_app : forall s t,
  count_quotes (s ++ t) = (count_quotes s + count_quotes t)%nat.
Proof.
  intros s t; unfold count_quotes. rewrite filter_app, length_app. reflexivity.
Qed.

Lemma count_quotes_spaces : forall ws, Forall is_space ws -> count_quotes ws = 0%nat.
Proof.
  intros ws H; induction H as [|ch ws Hch _ IH]; [reflexivity|].
  unfold count_quotes in *. cbn [filter].
  rewrite (space_not_quote ch Hch). exact IH.
Qed.

Lemma count_quotes_value : forall v,
  Forall (fun ch => ~ is_quote ch) v -> count_quotes v = 0%nat.
Proof.
  intros v H; induction H as [|ch v Hch _ IH]; [reflexivity|].
  unfold count_quotes in *. cbn [filter].
  rewrite <- mem_quotes in Hch. destruct (mem ch quotes); [congruence | exact IH].
Qed.

Lemma count_quotes_quote : forall q, is_quote q -> count_quotes [q] = 1%nat.
Proof.
  intros q H; unfold count_quotes; cbn [filter].
  apply mem_quotes in H. rewrite H. reflexivity.
Qed.

(** A token holds exactly two quote characters, and ends with one. *)
Lemma token_two_quotes : forall t value, token t value -> count_quotes t = 2%nat.
Proof.
  intros t value H; destruct H as [ws1 ws2 q1 q2 value Hw1 Hw2 Hq1 Hq2 Hne Hv].
  rewrite !count_quotes_app.
  rewrite (count_quotes_spaces _ Hw1), (count_quotes_spaces _ Hw2),
    (count_quotes_value _ Hv), (count_quotes_quote _ Hq1), (count_quotes_quote _ Hq2).
  reflexivity.
Qed.

Lemma token_ends_with_quote : forall t value,
  token t value -> exists t' q, t = t' ++ [q] /\ is_quote q.
Proof.
  intros t value H; destruct H as [ws1 ws2 q1 q2 value Hw1 Hw2 Hq1 Hq2 Hne Hv].
  exists (lit "VERSION" ++ ws1 ++ [61] ++ ws2 ++ [q1] ++ value), q2.
  split; [repeat rewrite <- app_assoc; reflexivity | exact Hq2].
Qed.

Lemma app_eq_shorter : forall (x1 y1 x2 y2 : str),
  x1 ++ y1 = x2 ++ y2 -> (List.length x1 <= List.length x2)%nat ->
  exists d, x2 = x1 ++ d /\ y1 = d ++ y2.
Proof.
  induction x1 as [|c x1 IH]; intros y1 x2 y2 E Hl.
  - exists x2; auto.
  - destruct x2 as [|c2 x2]; [cbn [List.length] in Hl; lia|].
    injection E as <- E. cbn [List.length] in Hl.
    destruct (IH y1 x2 y2 E ltac:(lia)) as (d & -> & ->).
    exists d; auto.
Qed.

(** A token that starts before another one cannot reach beyond its end. *)
Lemma token_not_across : forall (a t b u : str) value value',
  token t value -> token u value' ->
  a <> [] -> b <> [] -> u = a ++ t ++ b -> False.
Proof.
  intros a t b u value value' Ht Hu Ha Hb E.
  pose proof (token_two_quotes _ _ Ht) as Ct.
  pose proof (token_two_quotes _ _ Hu) as Cu.
  destruct (token_ends_with_quote _ _ Hu) as (u' & q & Eu & Hq).
  rewrite E, !count_quotes_app, Ct in Cu.
  assert (Cb : count_quotes b = 0%nat) by lia.
  destruct (exists_last Hb) as (b' & q' & ->).
  assert (q' = q).
  { rewrite E in Eu. rewrite !app_assoc in Eu.
    apply app_inj_tail in Eu. destruct Eu; assumption. }
  subst q'. rewrite count_quotes_app, (count_quotes_quote _ Hq) in Cb. lia.
Qed.

Lemma occurs_at_app : forall b1 b2 i value,
  occurs_at b1 i value -> occurs_at (b1 ++ b2) i value.
Proof.
  intros b1 b2 i value (pre & t & post & -> & Hi & Ht).
  exists pre, t, (post ++ b2). repeat rewrite <- app_assoc. auto.
Qed.

(** What [_parse_version] finds in a text, it finds in every extension of
    the text. *)
Lemma parse_version_app : forall self b1 b2 value,
  _parse_version self b1 = Some value ->
  _parse_version self (b1 ++ b2) = Some value.
Proof.
  intros self b1 b2 value H.
  apply parse_version_leftmost in H. destruct H as (i & Hi & Hfirst).
  apply parse_version_leftmost. exists i. split; [apply occurs_at_app; exact Hi|].
  intros j value' Hj (pre_j & t_j & post_j & Ej & Hlj & Htj).
  destruct Hi as (pre_i & t_i & post_i & Ei & Hli & Hti).
  destruct (Nat.le_gt_cases (List.length (pre_j ++ t_j)) (List.length b1)) as [Hle|Hgt].
  - (* the earlier token lies within b1 *)
    rewrite app_assoc in Ej. symmetry in Ej.
    destruct (app_eq_shorter _ _ _ _ Ej Hle) as (d & Eb & _).
    apply (Hfirst j value' Hj). exists pre_j, t_j, d.
    rewrite Eb, <- app_assoc. auto.
  - (* the earlier token reaches beyond b1: it would enclose the first one *)
    assert (E1 : pre_j ++ t_j ++ post_j = pre_i ++ t_i ++ (post_i ++ b2))
      by (rewrite <- Ej, Ei; repeat rewrite <- app_assoc; reflexivity).
    destruct (app_eq_shorter _ _ _ _ E1 ltac:(lia)) as (a & Epre & E2).
    assert (Ha : a <> []).
    { intros ->. rewrite app_nil_r in Epre. subst pre_i. lia. }
    subst pre_i. rewrite app_assoc in E2. symmetry in E2.
    assert (Hl2 : (List.length (a ++ t_i) <= List.length t_j)%nat).
    { rewrite Ei in Hgt. rewrite !length_app in *. lia. }
    destruct (app_eq_shorter _ _ _ _ E2 Hl2) as (b & Et & _).
    assert (Hb : b <> []).
    { intros ->. rewrite app_nil_r in Et. subst t_j.
      rewrite Ei in Hgt. rewrite !length_app in *. lia. }
    apply (token_not_across a t_i b t_j value value' Hti Htj Ha Hb).
    rewrite Et, <- app_assoc. reflexivity.
Qed.

(** ** Lemmas on the comparison *)

Lemma lex_lt_nil_r : forall a, ~ lex_lt a [].
Proof.
  intros a [(c & Hc & E)|(p & x & y & a' & b' & _ & E & _)].
  - symmetry in E. apply app_eq_nil in E. destruct E; contradiction.
  - destruct p; discriminate.
Qed.

Lemma lex_lt_nil_l : forall x b, lex_lt [] (x :: b).
Proof. intros x b; left; exists (x :: b); split; [discriminate | reflexivity]. Qed.

Lemma lex_lt_cons_eq : forall x a b, lex_lt (x :: a) (x :: b) <-> lex_lt a b.
Proof.
  intros x a b; split.
  - intros [(c & Hc & E)|(p & u & v & a' & b' & Ea & Eb & Huv)].
    + left; exists c; split; [exact Hc | injection E; auto].
    + destruct p as [|z p].
      * injection Ea as -> _. injection Eb as -> _. lia.
      * injection Ea as _ ->. injection Eb as _ ->.
        right; exists p, u, v, a', b'; auto.
  - intros [(c & Hc & ->)|(p & u & v & a' & b' & -> & -> & Huv)].
    + left; exists c; auto.
    + right; exists (x :: p), u, v, a', b'; auto.
Qed.

Lemma lex_lt_cons_neq : forall x y a b,
  x <> y -> (lex_lt (x :: a) (y :: b) <-> (x < y)%Z).
Proof.
  intros x y a b Hne; split.
  - intros [(c & Hc & E)|(p & u & v & a' & b' & Ea & Eb & Huv)].
    + injection E as E _. congruence.
    + destruct p as [|z p].
      * injection Ea as -> _. injection Eb as -> _. exact Huv.
      * injection Ea as -> _. injection Eb as -> _. congruence.
  - intros Hlt; right; exists [], x, y, a, b; auto.
Qed.

(** [lex_lt] is a strict total order. *)
Lemma lex_lt_trans : forall a b c, lex_lt a b -> lex_lt b c -> lex_lt a c.
Proof.
  induction a as [|x a IH]; intros b c Hab Hbc.
  - destruct c as [|z c]; [exfalso; exact (lex_lt_nil_r _ Hbc) | apply lex_lt_nil_l].
  - destruct b as [|y b]; [exfalso; exact (lex_lt_nil_r _ Hab)|].
    destruct c as [|z c]; [exfalso; exact (lex_lt_nil_r _ Hbc)|].
    destruct (Z.eq_dec x y) as [->|Hxy], (Z.eq_dec y z) as [->|Hyz].
    + apply lex_lt_cons_eq. apply lex_lt_cons_eq in Hab, Hbc. eauto.
    + apply lex_lt_cons_neq in Hbc; [|exact Hyz].
      apply lex_lt_cons_neq; [exact Hyz | exact Hbc].
    + apply lex_lt_cons_neq in Hab; [|exact Hxy].
      apply lex_lt_cons_neq; [exact Hxy | exact Hab].
    + apply lex_lt_cons_neq in Hab; [|exact Hxy].
      apply lex_lt_cons_neq in Hbc; [|exact Hyz].
      apply lex_lt_cons_neq; lia.
Qed.

Lemma lex_lt_total : forall a b, lex_lt a b \/ a = b \/ lex_lt b a.
Proof.
  induction a as [|x a IH]; intros [|y b].
  - right; left; reflexivity.
  - left; apply lex_lt_nil_l.
  - right; right; apply lex_lt_nil_l.
  - destruct (Z.lt_total x y) as [Hlt|[->|Hgt]].
    + left. apply lex_lt_cons_neq; lia.
    + destruct (IH b) as [H|[->|H]].
      * left; apply lex_lt_cons_eq; exact H.
      * right; left; reflexivity.
      * right; right; apply lex_lt_cons_eq; exact H.
    + right; right. apply lex_lt_cons_neq; lia.
Qed.

(** Python's [v > w] on lists of integers is the lexicographic order. *)
Lemma list_gt_lex_lt : forall v w, list_gt v w = true <-> lex_lt w v.
Proof.
  induction v as [|x v IH]; intros w.
  - destruct w; simpl; split; try discriminate; intros H;
      exfalso; exact (lex_lt_nil_r _ H).
  - destruct w as [|y w]; cbn [list_gt].
    + split; [intros _; apply lex_lt_nil_l | reflexivity].
    + destruct (Z.eqb_spec x y) as [->|Hne].
      * rewrite IH. symmetry. apply lex_lt_cons_eq.
      * rewrite Z.ltb_lt. symmetry. apply lex_lt_cons_neq. congruence.
Qed.

Lemma list_gt_irrefl : forall v, list_gt v v = false.
Proof.
  induction v as [|x v IH]; cbn [list_gt].
  - reflexivity.
  - rewrite Z.eqb_refl. exact IH.
Qed.

Lemma lex_lt_irrefl : forall v, ~ lex_lt v v.
Proof.
  intros v H. apply list_gt_lex_lt in H. rewrite list_gt_irrefl in H. discriminate.
Qed.

(** ** Lemmas on [int] *)

Lemma skip_space_incl : forall s ch, In ch (skip_space s) -> In ch s.
Proof.
  induction s as [|c s IH]; simpl; intros ch H; [exact H|].
  destruct (Py_ISSPACE c); [right; apply IH; exact H | exact H].
Qed.

Lemma scan_digits_nonneg : forall s prev z digits prev' z' digits' rest,
  (0 <= z)%Z ->
  scan_digits prev z digits s = Some (prev', z', digits', rest) ->
  (0 <= z')%Z.
Proof.
  induction s as [|ch s IH]; cbn [scan_digits];
    intros prev z digits prev' z' digits' rest Hz H.
  - injection H as _ <- _ _. exact Hz.
  - destruct (ch =? 95).
    + destruct (prev =? 95); [discriminate | eauto].
    + destruct (digit_value ch) as [d|].
      * eapply IH; [|exact H]. lia.
      * injection H as _ <- _ _. exact Hz.
Qed.

Section IntLemmas.

Variable Py_UNICODE_TODECIMAL : N -> option N.
Variable max_str_digits : N.

Lemma transform_no_minus : forall u,
  ~ In 45 u -> ~ In 45 (transform Py_UNICODE_TODECIMAL u).
Proof.
  induction u as [|ch u IH]; cbn [transform]; intros Hu; [auto|].
  assert (Hch : ch <> 45) by (intros ->; apply Hu; left; reflexivity).
  assert (Hu' : ~ In 45 (transform Py_UNICODE_TODECIMAL u))
    by (apply IH; intros H; apply Hu; right; exact H).
  destruct (ch <? 127).
  - cbn [In]; intros [E|E]; [congruence | contradiction].
  - destruct (Py_UNICODE_ISSPACE ch).
    + cbn [In]; intros [E|E]; [discriminate | contradiction].
    + destruct (Py_UNICODE_TODECIMAL ch) as [d|].
      * cbn [In]; intros [E|E]; [lia | contradiction].
      * cbn [In]; intros [E|E]; [discriminate | contradiction].
Qed.

Lemma PyLong_FromString_nonneg : forall s z,
  ~ In 45 s -> PyLong_FromString max_str_digits s = Some z -> (0 <= z)%Z.
Proof.
  intros s z Hs. unfold PyLong_FromString.
  assert (Hs' : ~ In 45 (skip_space s))
    by (intros H; apply Hs, skip_space_incl; exact H).
  destruct (skip_space s) as [|ch s0] eqn:E.
  - simpl. discriminate.
  - assert (Hch : (ch =? 45) = false)
      by (apply N.eqb_neq; intros ->; apply Hs'; left; reflexivity).
    rewrite Hch.
    assert (Hgen : forall t,
      (if match t with c :: _ => c =? 95 | [] => false end then None
       else match scan_digits 0 0%Z 0 t with
            | None => None
            | Some (prev, z0, digits, rest) =>
                if prev =? 95 then None
                else if Nat.eqb (List.length rest) (List.length t) then None
                else match skip_space rest with
                     | _ :: _ => None
                     | [] =>
                         if (_PY_LONG_MAX_STR_DIGITS_THRESHOLD <? digits)
                            && (0 <? max_str_digits) && (max_str_digits <? digits)
                         then None else Some (1 * z0)%Z
                     end
            end) = Some z -> (0 <= z)%Z).
    { intros t H.
      destruct (match t with c :: _ => c =? 95 | [] => false end); [discriminate|].
      destruct (scan_digits 0 0%Z 0 t) as [[[[prev z0] digits] rest]|] eqn:Es;
        [|discriminate].
      apply scan_digits_nonneg in Es; [|lia].
      destruct (prev =? 95); [discriminate|].
      destruct (Nat.eqb _ _); [discriminate|].
      destruct (skip_space rest); [|discriminate].
      destruct (_ && _); [discriminate|].
      assert (Hz : z = (1 * z0)%Z) by congruence. lia. }
    destruct (ch =? 43); [exact (Hgen s0) | exact (Hgen (ch :: s0))].
Qed.

Lemma int_nonneg : forall x z,
  ~ In 45 x -> int Py_UNICODE_TODECIMAL max_str_digits x = Some z -> (0 <= z)%Z.
Proof.
  intros x z Hx. unfold int, _PyUnicode_TransformDecimalAndSpaceToASCII.
  destruct (forallb _ x).
  - apply PyLong_FromString_nonneg; exact Hx.
  - apply PyLong_FromString_nonneg, transform_no_minus; exact Hx.
Qed.

Lemma split_chars : forall sep s w ch, In w (split sep s) -> In ch w -> In ch s.
Proof.
  induction s as [|c s IH]; simpl; intros w ch Hw Hch.
  - destruct Hw as [<-|[]]. exact Hch.
  - destruct (c =? sep).
    + destruct Hw as [<-|Hw]; [destruct Hch | right; eapply IH; eauto].
    + destruct (split sep s) as [|w0 ws] eqn:E.
      * destruct Hw as [<-|[]]. destruct Hch as [<-|[]]. left; reflexivity.
      * destruct Hw as [<-|Hw].
        -- destruct Hch as [<-|Hch]; [left; reflexivity|].
           right; apply (IH w0 ch); [left; reflexivity | exact Hch].
        -- right; apply (IH w ch); [right; exact Hw | exact Hch].
Qed.

Lemma int_each_nonneg : forall xs vs,
  (forall x, In x xs -> ~ In 45 x) ->
  int_each Py_UNICODE_TODECIMAL max_str_digits xs = Some vs ->
  Forall (fun z => (0 <= z)%Z) vs.
Proof.
  induction xs as [|x xs IH]; simpl; intros vs Hxs H.
  - injection H as <-. constructor.
  - destruct (int _ _ x) as [n|] eqn:En; [|discriminate].
    destruct (int_each _ _ xs) as [ns|] eqn:Ens; [|discriminate].
    injection H as <-. constructor.
    + eapply int_nonneg; [|exact En]. apply Hxs; left; reflexivity.
    + apply IH; [|reflexivity]. intros y Hy; apply Hxs; right; exact Hy.
Qed.

Lemma int_each_Some : forall xs vs,
  int_each Py_UNICODE_TODECIMAL max_str_digits xs = Some vs <->
  Forall2 (fun x z => int Py_UNICODE_TODECIMAL max_str_digits x = Some z) xs vs.
Proof.
  induction xs as [|x xs IH]; intros vs; cbn [int_each].
  - split; [intros H; injection H as <-; constructor | intros H; inversion H; reflexivity].
  - split.
    + destruct (int _ _ x) as [n|] eqn:En; [|discriminate].
      destruct (int_each _ _ xs) as [ns|] eqn:Ens; [|discriminate].
      intros H; injection H as <-. constructor; [exact En | apply IH; reflexivity].
    + intros H; inversion H as [|x' z xs' zs Hx Hxs]; subst.
      rewrite Hx. apply IH in Hxs. rewrite Hxs. reflexivity.
Qed.

Lemma int_each_None : forall xs,
  int_each Py_UNICODE_TODECIMAL max_str_digits xs = None <->
  exists x, In x xs /\ int Py_UNICODE_TODECIMAL max_str_digits x = None.
Proof.
  induction xs as [|x xs IH]; cbn [int_each].
  - split; [discriminate | intros (x & [] & _)].
  - destruct (int _ _ x) as [n|] eqn:En.
    + destruct (int_each _ _ xs) as [ns|] eqn:Ens.
      * split; [discriminate|]. intros (y & [<-|Hy] & Hn); [congruence|].
        assert (Hc : Some ns = None) by (apply IH; eauto). discriminate Hc.
      * split; [|reflexivity]. intros _.
        destruct (proj1 IH eq_refl) as (y & Hy & Hn). exists y; split; [right|]; assumption.
    + split; [|reflexivity]. intros _. exists x; split; [left; reflexivity | exact En].
Qed.

Lemma parts_version_tuple : forall version tuple,
  parts Py_UNICODE_TODECIMAL max_str_digits version = Some tuple <->
  version_tuple Py_UNICODE_TODECIMAL max_str_digits version tuple.
Proof. intros version tuple; apply int_each_Some. Qed.

Lemma parts_unparsable : forall version,
  parts Py_UNICODE_TODECIMAL max_str_digits version = None <->
  unparsable Py_UNICODE_TODECIMAL max_str_digits version.
Proof. intros version; apply int_each_None. Qed.

End IntLemmas.

(** ** Lemmas on [run] *)

Lemma signals_app : forall h1 h2, signals (h1 ++ h2) = signals h1 ++ signals h2.
Proof.
  induction h1 as [|[l m|sg] h1 IH]; intros h2; simpl; [reflexivity | apply IH |].
  f_equal; apply IH.
Qed.

Section RunLemmas.

Variable Py_UNICODE_TODECIMAL : N -> option N.
Variable max_str_digits : N.
Variable urlopen_read_decode : Request -> N -> outcome str.

Local Abbreviation run' :=
  (run Py_UNICODE_TODECIMAL max_str_digits urlopen_read_decode).
Local Abbreviation _is_newer' :=
  (_is_newer Py_UNICODE_TODECIMAL max_str_digits).
Local Abbreviation newer_value' :=
  (newer_value Py_UNICODE_TODECIMAL max_str_digits).
Local Abbreviation newer_events' :=
  (newer_events Py_UNICODE_TODECIMAL max_str_digits).

(** When the fetch raises an instance of [Exception], the matching clause
    logs and reports the failure. *)
Lemma run_raised : forall self e h,
  urlopen_read_decode (sent_request self) REQUEST_TIMEOUT = Raised e ->
  isinstance e cls_Exception = true ->
  run' self h =
  (Returned tt,
   h ++ [log_checking self; Log ERROR (failure_message e);
         Emit (check_failed (failure_message e))]).
Proof.
  intros self e h Hnet Hx.
  unfold run, try_except, bind, lift, log. fold (sent_request self).
  rewrite Hnet. unfold dispatch, failure_message, emit.
  destruct (isinstance e cls_URLError);
    [|destruct (isinstance e cls_TimeoutError); [|rewrite Hx]];
    repeat rewrite <- app_assoc; reflexivity.
Qed.

(** When the fetch raises anything else, no clause matches: the exception
    leaves [run] and nothing is emitted. *)
Lemma run_propagates : forall self e h,
  urlopen_read_decode (sent_request self) REQUEST_TIMEOUT = Raised e ->
  isinstance e cls_Exception = false ->
  run' self h = (Raised e, h ++ [log_checking self]).
Proof.
  intros self e h Hnet Hx.
  assert (Hcls : isinstance e cls_URLError = false
                 /\ isinstance e cls_TimeoutError = false).
  { unfold isinstance in *. destruct (exc_cls e); try discriminate Hx;
      split; reflexivity. }
  destruct Hcls as [Hu Ht].
  unfold run, try_except, bind, lift, log. fold (sent_request self).
  rewrite Hnet. unfold dispatch. rewrite Hu, Ht, Hx. reflexivity.
Qed.

(** When the fetched content has no version, the failure is reported. *)
Lemma run_no_version : forall self content h,
  urlopen_read_decode (sent_request self) REQUEST_TIMEOUT = Returned content ->
  _parse_version self content = None ->
  run' self h =
  (Returned tt,
   h ++ [log_checking self;
         Emit (check_failed (lit "Could not parse version from GitHub"))]).
Proof.
  intros self content h Hnet Hp.
  unfold run, try_except, bind, lift, log. fold (sent_request self).
  rewrite Hnet, Hp. unfold emit. repeat rewrite <- app_assoc. reflexivity.
Qed.

Lemma is_newer_outcome : forall self latest current h,
  _is_newer' self latest current h =
  (Returned (newer_value' latest current), h ++ newer_events' latest current).
Proof.
  intros self latest current h. unfold _is_newer, newer_value, newer_events.
  destruct (parts _ _ latest); [destruct (parts _ _ current)|];
    unfold bind, log, ret; rewrite ?app_nil_r; reflexivity.
Qed.

(** When the fetched content has a version, the comparison decides. *)
Lemma run_version : forall self content latest h,
  urlopen_read_decode (sent_request self) REQUEST_TIMEOUT = Returned content ->
  _parse_version self content = Some latest ->
  run' self h =
  (Returned tt,
   h ++ [log_checking self; Log INFO (lit "Latest version on GitHub: " ++ latest)]
     ++ newer_events' latest (current_version self)
     ++ (if newer_value' latest (current_version self)
         then [Log INFO (lit "Update available: " ++ latest);
               Emit (update_available latest (current_version self))]
         else [Log INFO (lit "Already running latest version");
               Emit (no_update (current_version self))])).
Proof.
  intros self content latest h Hnet Hp.
  assert (Hne : latest <> []).
  { apply parse_version_leftmost in Hp. destruct Hp as (i & (pre & t & post & _ & _ & Ht) & _).
    destruct Ht; assumption. }
  unfold run, try_except, bind, lift, log. fold (sent_request self).
  rewrite Hnet, Hp. destruct latest as [|c latest]; [congruence|].
  rewrite is_newer_outcome.
  destruct (newer_value' (c :: latest) (current_version self));
    unfold emit; repeat rewrite <- app_assoc; reflexivity.
Qed.

End RunLemmas.

(** * Properties *)

(** ** Result signalling *)

(** C6, as the code has it: a run for which the fetch returns, or raises an
    instance of [Exception], ends normally and emits exactly one of the
    three signals [update_available], [no_update], [check_failed]: the
    signals of the history grow by exactly one.  When the fetch raises an
    exception that is not an instance of [Exception], no clause catches
    it: the run raises it and emits nothing. *)
Theorem run_emits_exactly_one_signal :
  forall td msd net self h,
    ((forall e, net (sent_request self) REQUEST_TIMEOUT = Raised e ->
                isinstance e cls_Exception = true) ->
     exists sg,
       fst (run td msd net self h) = Returned tt /\
       signals (snd (run td msd net self h)) = signals h ++ [sg]) /\
    (forall e, net (sent_request self) REQUEST_TIMEOUT = Raised e ->
               isinstance e cls_Exception = false ->
               fst (run td msd net self h) = Raised e /\
               signals (snd (run td msd net self h)) = signals h).
Proof.
  intros td msd net self h. split.
  - intros Hexc.
    destruct (net (sent_request self) REQUEST_TIMEOUT) as [content|e] eqn:Hnet.
    + destruct (_parse_version self content) as [latest|] eqn:Hp.
      * rewrite (run_version td msd net self content latest h Hnet Hp).
        cbn [fst snd]. rewrite !signals_app. unfold newer_events.
        destruct (newer_value td msd latest (current_version self));
          destruct (parts td msd latest), (parts td msd (current_version self));
          eexists; split; reflexivity.
      * rewrite (run_no_version td msd net self content h Hnet Hp).
        cbn [fst snd]. rewrite signals_app. eexists; split; reflexivity.
    + rewrite (run_raised td msd net self e h Hnet (Hexc e eq_refl)).
      cbn [fst snd]. rewrite signals_app. eexists; split; reflexivity.
  - intros e Hnet Hx.
    rewrite (run_propagates td msd net self e h Hnet Hx).
    cbn [fst snd]. rewrite signals_app. cbn [signals]. rewrite app_nil_r.
    split; reflexivity.
Qed.

Lemma run_emits_exactly_one_signal_witness :
  exists sg,
    fst (run unicode_14_decimal default_max_str_digits
           (fails_with connection_refused) installed_2_1_0 []) = Returned tt /\
    signals (snd (run unicode_14_decimal default_max_str_digits
                    (fails_with connection_refused) installed_2_1_0 []))
    = [] ++ [sg].
Proof.
  apply (proj1 (run_emits_exactly_one_signal unicode_14_decimal
                  default_max_str_digits (fails_with connection_refused)
                  installed_2_1_0 [])).
  intros e H. injection H as <-. reflexivity.
Defined.

(** C6 fails as stated: when the fetch is interrupted, the run raises
    [KeyboardInterrupt] after its first log record and emits no signal. *)
Lemma run_interrupted_emits_nothing :
  run unicode_14_decimal default_max_str_digits
      (fails_with keyboard_interrupt) installed_2_1_0 []
  = (Raised keyboard_interrupt, [log_checking installed_2_1_0])
  /\ signals [log_checking installed_2_1_0] = [].
Proof. split; reflexivity. Qed.

(** C2, as the code has it: when the fetch raises an instance of
    [Exception], whichever it is, [run] ends normally, so the exception
    does not reach the caller, and emits [check_failed] with the message
    of the matching clause: the network error with its reason, the
    timeout, or the text of any other exception; the message is never
    empty. *)
Theorem run_fetch_exception_reports_failed :
  forall td msd net self e h,
    net (sent_request self) REQUEST_TIMEOUT = Raised e ->
    isinstance e cls_Exception = true ->
    fst (run td msd net self h) = Returned tt /\
    signals (snd (run td msd net self h))
      = signals h ++ [check_failed (failure_message e)] /\
    failure_message e <> [].
Proof.
  intros td msd net self e h Hnet Hx.
  rewrite (run_raised td msd net self e h Hnet Hx). cbn [fst snd].
  rewrite signals_app. repeat split.
  unfold failure_message.
  destruct (isinstance e cls_URLError); [discriminate|].
  destruct (isinstance e cls_TimeoutError); discriminate.
Qed.

Lemma run_fetch_exception_reports_failed_witness :
  fails_with connection_refused (sent_request installed_2_1_0) REQUEST_TIMEOUT
    = Raised connection_refused
  /\ isinstance connection_refused cls_Exception = true
  /\ signals (snd (run unicode_14_decimal default_max_str_digits
                     (fails_with connection_refused) installed_2_1_0 []))
     = [check_failed (lit "Network error: [Errno 111] Connection refused")].
Proof.
  split; [reflexivity|]. split; [reflexivity|].
  exact (proj1 (proj2
    (run_fetch_exception_reports_failed unicode_14_decimal default_max_str_digits
       (fails_with connection_refused) installed_2_1_0 connection_refused []
       eq_refl eq_refl))).
Defined.

(** C2 fails as stated: [KeyboardInterrupt] is an exception the fetch can
    raise and is not an instance of [Exception]; no clause of [run]
    catches it, so it reaches the caller and no [check_failed] is
    emitted. *)
Lemma run_keyboard_interrupt_propagates :
  fails_with keyboard_interrupt (sent_request installed_2_1_0) REQUEST_TIMEOUT
    = Raised keyboard_interrupt
  /\ fst (run unicode_14_decimal default_max_str_digits
            (fails_with keyboard_interrupt) installed_2_1_0 [])
     = Raised keyboard_interrupt
  /\ signals (snd (run unicode_14_decimal default_max_str_digits
                     (fails_with keyboard_interrupt) installed_2_1_0 []))
     = [].
Proof. repeat split; reflexivity. Qed.

(** C3: when the pattern finds no match in the fetched content, [run]
    emits [check_failed] with exactly the message
    Could not parse version from GitHub. *)
Theorem run_no_match_reports_parse_failure :
  forall td msd net self content h,
    net (sent_request self) REQUEST_TIMEOUT = Returned content ->
    search VERSION_RE content = None ->
    fst (run td msd net self h) = Returned tt /\
    signals (snd (run td msd net self h))
      = signals h ++ [check_failed (lit "Could not parse version from GitHub")].
Proof.
  intros td msd net self content h Hnet Hs.
  assert (Hp : _parse_version self content = None)
    by (unfold _parse_version; rewrite Hs; reflexivity).
  rewrite (run_no_version td msd net self content h Hnet Hp). cbn [fst snd].
  rewrite signals_app. split; reflexivity.
Qed.

Lemma run_no_match_reports_parse_failure_witness :
  search VERSION_RE (lit "404: Not Found") = None
  /\ signals (snd (run unicode_14_decimal default_max_str_digits
                     (responds (lit "404: Not Found")) installed_2_1_0 []))
     = [check_failed (lit "Could not parse version from GitHub")].
Proof.
  split; [reflexivity|].
  exact (proj2
    (run_no_match_reports_parse_failure unicode_14_decimal default_max_str_digits
       (responds (lit "404: Not Found")) installed_2_1_0 (lit "404: Not Found") []
       eq_refl eq_refl)).
Defined.

(** ** Version comparison *)

(** C1: for two version strings whose segments all parse as integers,
    [_is_newer] is the strict lexicographic order of the two tuples, and
    [run], given the remote string by the fetched content, emits
    [update_available] with the two strings exactly when the remote tuple
    is above the local one and [no_update] otherwise; equal strings give
    [no_update]. *)
Theorem run_reports_update_iff_lex_greater :
  forall td msd latest current remote local,
    version_tuple td msd latest remote ->
    version_tuple td msd current local ->
    (forall self h,
       exists newer,
         _is_newer td msd self latest current h = (Returned newer, h) /\
         (newer = true <-> lex_lt local remote)) /\
    (forall net self content h,
       current_version self = current ->
       net (sent_request self) REQUEST_TIMEOUT = Returned content ->
       _parse_version self content = Some latest ->
       fst (run td msd net self h) = Returned tt /\
       (lex_lt local remote ->
        signals (snd (run td msd net self h))
          = signals h ++ [update_available latest current]) /\
       (~ lex_lt local remote ->
        signals (snd (run td msd net self h))
          = signals h ++ [no_update current]) /\
       (latest = current ->
        signals (snd (run td msd net self h))
          = signals h ++ [no_update current])).
Proof.
  intros td msd latest current remote local Hl Hc.
  apply parts_version_tuple in Hl, Hc.
  assert (Hv : newer_value td msd latest current = list_gt remote local)
    by (unfold newer_value; rewrite Hl, Hc; reflexivity).
  assert (He : newer_events td msd latest current = [])
    by (unfold newer_events; rewrite Hl, Hc; reflexivity).
  split.
  - intros self h. exists (list_gt remote local).
    rewrite is_newer_outcome, Hv, He, app_nil_r.
    split; [reflexivity | apply list_gt_lex_lt].
  - intros net self content h Hself Hnet Hp.
    rewrite (run_version td msd net self content latest h Hnet Hp).
    rewrite Hself, Hv, He. cbn [fst snd]. rewrite !signals_app.
    split; [reflexivity|]. split; [|split].
    + intros Hlt. apply list_gt_lex_lt in Hlt. rewrite Hlt. reflexivity.
    + intros Hnlt. destruct (list_gt remote local) eqn:E; [|reflexivity].
      exfalso. apply Hnlt, list_gt_lex_lt. exact E.
    + intros Heq. assert (remote = local) by congruence. subst remote.
      rewrite list_gt_irrefl. reflexivity.
Qed.

Lemma run_reports_update_iff_lex_greater_witness :
  version_tuple unicode_14_decimal default_max_str_digits
    (lit "2.10.0") [2; 10; 0]%Z
  /\ version_tuple unicode_14_decimal default_max_str_digits
       (lit "2.9.9") [2; 9; 9]%Z
  /\ signals (snd (run unicode_14_decimal default_max_str_digits
                     (responds (init_py (lit "2.10.0")))
                     {| current_version := lit "2.9.9" |} []))
     = [update_available (lit "2.10.0") (lit "2.9.9")].
Proof.
  split; [repeat constructor|]. split; [repeat constructor|].
  refine (proj1 (proj2 (proj2
    (run_reports_update_iff_lex_greater unicode_14_decimal default_max_str_digits
       (lit "2.10.0") (lit "2.9.9") [2; 10; 0]%Z [2; 9; 9]%Z
       ltac:(repeat constructor) ltac:(repeat constructor))
    (responds (init_py (lit "2.10.0"))) {| current_version := lit "2.9.9" |}
    (init_py (lit "2.10.0")) [] eq_refl eq_refl eq_refl)) _).
  right. exists [2%Z], 9%Z, 10%Z, [9%Z], [0%Z].
  repeat split; reflexivity.
Defined.

(** C5: when a segment of either version string does not parse as an
    integer, [_is_newer] logs one warning and returns [False], and [run]
    emits [no_update] with the current version, not [check_failed]. *)
Theorem unparsable_component_yields_up_to_date :
  forall td msd latest current,
    unparsable td msd latest \/ unparsable td msd current ->
    (forall self h,
       _is_newer td msd self latest current h =
       (Returned false,
        h ++ [Log WARNING (lit "Could not parse versions: " ++ latest
                           ++ lit " vs " ++ current)])) /\
    (forall net self content h,
       current_version self = current ->
       net (sent_request self) REQUEST_TIMEOUT = Returned content ->
       _parse_version self content = Some latest ->
       fst (run td msd net self h) = Returned tt /\
       signals (snd (run td msd net self h)) = signals h ++ [no_update current]).
Proof.
  intros td msd latest current Hnone.
  rewrite <- !parts_unparsable in Hnone.
  assert (Hv : newer_value td msd latest current = false).
  { unfold newer_value. destruct Hnone as [-> | ->]; [reflexivity|].
    destruct (parts td msd latest); reflexivity. }
  assert (He : newer_events td msd latest current =
               [Log WARNING (lit "Could not parse versions: " ++ latest
                             ++ lit " vs " ++ current)]).
  { unfold newer_events. destruct Hnone as [-> | ->]; [reflexivity|].
    destruct (parts td msd latest); reflexivity. }
  split.
  - intros self h. rewrite is_newer_outcome, Hv, He. reflexivity.
  - intros net self content h Hself Hnet Hp.
    rewrite (run_version td msd net self content latest h Hnet Hp).
    rewrite Hself, Hv, He. cbn [fst snd]. rewrite !signals_app.
    split; reflexivity.
Qed.

Lemma unparsable_component_yields_up_to_date_witness :
  unparsable unicode_14_decimal default_max_str_digits (lit "2.abc.0")
  /\ signals (snd (run unicode_14_decimal default_max_str_digits
                     (responds (init_py (lit "2.abc.0"))) installed_2_1_0 []))
     = [no_update (lit "2.1.0")].
Proof.
  split; [exists (lit "abc"); split; [right; left|]; reflexivity|].
  exact (proj2 (proj2
    (unparsable_component_yields_up_to_date unicode_14_decimal
       default_max_str_digits (lit "2.abc.0") (lit "2.1.0")
       (or_introl (ex_intro _ (lit "abc") (conj (or_intror (or_introl eq_refl)) eq_refl))))
    (responds (init_py (lit "2.abc.0"))) installed_2_1_0
    (init_py (lit "2.abc.0")) [] eq_refl eq_refl eq_refl)).
Defined.

(** C7, as the code has it: in the tuple derived from a version string, a
    component is negative only if its segment holds a minus sign; so a
    version string without a minus sign gives a tuple of non-negative
    integers.  ([int] accepts a sign: a segment such as -2 parses to a
    negative component.) *)
Theorem parts_nonnegative_without_minus :
  forall td msd version tuple,
    parts td msd version = Some tuple ->
    Forall2 (fun segment z => ~ In 45 segment -> (0 <= z)%Z)
            (split 46 version) tuple /\
    (~ In 45 version -> Forall (fun z => (0 <= z)%Z) tuple).
Proof.
  intros td msd version tuple Hp. split.
  - apply parts_version_tuple in Hp. unfold version_tuple in Hp.
    eapply Forall2_impl; [|exact Hp].
    intros segment z Hz Hm. exact (int_nonneg td msd segment z Hm Hz).
  - intros Hm. unfold parts in Hp.
    eapply int_each_nonneg; [|exact Hp].
    intros x Hx H45. apply Hm. eapply split_chars; eauto.
Qed.

Lemma parts_nonnegative_without_minus_witness :
  parts unicode_14_decimal default_max_str_digits (lit "2.10.0")
    = Some [2; 10; 0]%Z
  /\ Forall (fun z => (0 <= z)%Z) [2; 10; 0]%Z.
Proof.
  split; [reflexivity|].
  apply (proj2 (parts_nonnegative_without_minus unicode_14_decimal
                  default_max_str_digits (lit "2.10.0") [2; 10; 0]%Z eq_refl)).
  vm_compute. intuition discriminate.
Defined.

(** C7 fails as stated: every segment of 1.-2.3 parses as an integer, and
    the second component of the tuple is negative. *)
Lemma parts_negative_component :
  parts unicode_14_decimal default_max_str_digits (lit "1.-2.3")
    = Some [1; -2; 3]%Z
  /\ ~ Forall (fun z => (0 <= z)%Z) [1; -2; 3]%Z.
Proof.
  split; [reflexivity|].
  intros H. inversion H as [|x l _ H']. inversion H' as [|y l' Hy _]. lia.
Qed.

(** ** Version extraction *)

(** C8: [_parse_version] succeeds exactly on the contents that hold the
    text VERSION, optional whitespace, the equals sign, optional
    whitespace, a quote character, one or more characters that are not
    quote characters, and a quote character again, which may be the other
    one.  So a value it returns is never empty and holds no quote
    character, and a content that is only VERSION = followed by two double
    quotes has no match: [run] reports the parse failure. *)
Theorem parse_version_succeeds_iff_token :
  (forall self content,
     (exists value, _parse_version self content = Some value) <->
     (exists i value, occurs_at content i value)) /\
  (forall self content value,
     _parse_version self content = Some value ->
     value <> [] /\ Forall (fun ch => ~ is_quote ch) value) /\
  (forall self,
     _parse_version self (lit "VERSION = '3.0.0" ++ [34]) = Some (lit "3.0.0")) /\
  (forall self, _parse_version self (init_py []) = None) /\
  (forall td msd self h,
     signals (snd (run td msd (responds (init_py [])) self h))
     = signals h ++ [check_failed (lit "Could not parse version from GitHub")]).
Proof.
  split; [|split; [|split; [|split]]].
  - intros self content; split.
    + intros (value & H). apply parse_version_leftmost in H.
      destruct H as (i & Ho & _). eauto.
    + intros (i & value & Ho).
      destruct (_parse_version self content) as [v|] eqn:E; [eauto|].
      exfalso. exact (proj1 (parse_version_None self content) E i value Ho).
  - intros self content value H. apply parse_version_leftmost in H.
    destruct H as (i & (pre & t & post & _ & _ & Ht) & _).
    destruct Ht; auto.
  - reflexivity.
  - reflexivity.
  - intros td msd self h.
    rewrite (run_no_version td msd (responds (init_py [])) self (init_py []) h
               eq_refl eq_refl).
    cbn [snd]. rewrite signals_app. reflexivity.
Qed.

(** C9: the value [_parse_version] returns is the one of the leftmost
    token of the content, whatever tokens follow it; and what follows the
    content it has searched changes nothing. *)
Theorem parse_version_returns_leftmost :
  forall self content value,
    (_parse_version self content = Some value <->
     exists i,
       occurs_at content i value /\
       forall j value', (j < i)%nat -> ~ occurs_at content j value') /\
    (_parse_version self content = Some value ->
     forall later, _parse_version self (content ++ later) = Some value).
Proof.
  intros self content value. split.
  - apply parse_version_leftmost.
  - intros H later. apply parse_version_app. exact H.
Qed.

(** C4, as the code has it: when the content holds a token VERSION = Q
    value Q', with any whitespace around the equals sign, each of Q and Q'
    a single or a double quote, and a value that is not empty and holds no
    quote character, and no token starts before it, then [_parse_version]
    returns exactly that value. *)
Theorem parse_version_extracts_first_token_value :
  forall self pre ws1 ws2 q1 q2 value post,
    Forall is_space ws1 -> Forall is_space ws2 ->
    is_quote q1 -> is_quote q2 ->
    value <> [] -> Forall (fun ch => ~ is_quote ch) value ->
    (forall j value', (j < List.length pre)%nat ->
       ~ occurs_at (pre ++ (lit "VERSION" ++ ws1 ++ [61] ++ ws2 ++ [q1]
                            ++ value ++ [q2]) ++ post) j value') ->
    _parse_version self
      (pre ++ (lit "VERSION" ++ ws1 ++ [61] ++ ws2 ++ [q1] ++ value ++ [q2])
           ++ post)
    = Some value.
Proof.
  intros self pre ws1 ws2 q1 q2 value post Hw1 Hw2 Hq1 Hq2 Hne Hv Hfirst.
  apply parse_version_leftmost. exists (List.length pre). split; [|exact Hfirst].
  exists pre, (lit "VERSION" ++ ws1 ++ [61] ++ ws2 ++ [q1] ++ value ++ [q2]), post.
  split; [reflexivity | split; [reflexivity | constructor; assumption]].
Qed.

Lemma parse_version_extracts_first_token_value_witness :
  _parse_version installed_2_1_0
    (lit "# TourBox " ++ (lit "VERSION" ++ [32; 32] ++ [61] ++ [9] ++ [39]
                          ++ lit "3.0.0" ++ [34]) ++ lit " VERSION='9'")
  = Some (lit "3.0.0").
Proof.
  apply (parse_version_extracts_first_token_value installed_2_1_0
           (lit "# TourBox ") [32; 32] [9] 39 34 (lit "3.0.0") (lit " VERSION='9'")).
  - repeat constructor.
  - repeat constructor.
  - left; reflexivity.
  - right; reflexivity.
  - discriminate.
  - repeat constructor; intros [H|H]; discriminate H.
  - apply no_match_before_sound. reflexivity.
Defined.

(** C4 fails as stated.  A content can hold the token with the value 3.0.0
    after another token, and the value of the first one is returned; and a
    value between double quotes that holds a single quote is cut there. *)
Lemma parse_version_not_every_token :
  occurs_at (init_py (lit "1.0.0") ++ [10] ++ init_py (lit "3.0.0")) 18 (lit "3.0.0")
  /\ _parse_version installed_2_1_0
       (init_py (lit "1.0.0") ++ [10] ++ init_py (lit "3.0.0"))
     = Some (lit "1.0.0")
  /\ _parse_version installed_2_1_0 (init_py (lit "3.0'0")) = Some (lit "3.0").
Proof.
  split; [|split; reflexivity].
  apply occurs_at_match. split; [simpl; lia|].
  eexists; split; [vm_compute; reflexivity | reflexivity].
Qed.

(** ** Purity *)

Lemma skip_space_length : forall s,
  (List.length (skip_space s) <= List.length s)%nat.
Proof.
  induction s as [|ch s IH]; cbn [skip_space List.length]; [lia|].
  destruct (Py_ISSPACE ch); cbn [List.length]; lia.
Qed.

Lemma transform_length : forall td u,
  (List.length (transform td u) <= List.length u)%nat.
Proof.
  intros td; induction u as [|ch u IH]; cbn [transform List.length]; [lia|].
  destruct (ch <? 127); [cbn [List.length]; lia|].
  destruct (Py_UNICODE_ISSPACE ch); [cbn [List.length]; lia|].
  destruct (td ch); cbn [List.length]; lia.
Qed.

(** The loop counts no more digits than it has characters before it. *)
Lemma scan_digits_count : forall s prev z digits prev' z' digits' rest,
  scan_digits prev z digits s = Some (prev', z', digits', rest) ->
  digits' <= digits + N.of_nat (List.length s).
Proof.
  induction s as [|ch s IH]; cbn [scan_digits List.length];
    intros prev z digits prev' z' digits' rest H.
  - injection H as _ _ <- _. lia.
  - destruct (ch =? 95).
    + destruct (prev =? 95); [discriminate|].
      apply IH in H. lia.
    + destruct (digit_value ch).
      * apply IH in H. lia.
      * injection H as _ _ <- _. lia.
Qed.

(** A text of at most 640 characters is parsed alike under every limit. *)
Lemma PyLong_FromString_any_limit : forall msd1 msd2 s,
  (List.length s <= 640)%nat ->
  PyLong_FromString msd1 s = PyLong_FromString msd2 s.
Proof.
  intros msd1 msd2 s Hlen. unfold PyLong_FromString.
  pose proof (skip_space_length s) as Hskip.
  assert (Hgen : forall (sign : Z) t, (List.length t <= 640)%nat ->
    (if match t with c :: _ => c =? 95 | [] => false end then None
     else match scan_digits 0 0%Z 0 t with
          | None => None
          | Some (prev, z0, digits, rest) =>
              if prev =? 95 then None
              else if Nat.eqb (List.length rest) (List.length t) then None
              else match skip_space rest with
                   | _ :: _ => None
                   | [] =>
                       if (_PY_LONG_MAX_STR_DIGITS_THRESHOLD <? digits)
                          && (0 <? msd1) && (msd1 <? digits)
                       then None else Some (sign * z0)%Z
                   end
          end) =
    (if match t with c :: _ => c =? 95 | [] => false end then None
     else match scan_digits 0 0%Z 0 t with
          | None => None
          | Some (prev, z0, digits, rest) =>
              if prev =? 95 then None
              else if Nat.eqb (List.length rest) (List.length t) then None
              else match skip_space rest with
                   | _ :: _ => None
                   | [] =>
                       if (_PY_LONG_MAX_STR_DIGITS_THRESHOLD <? digits)
                          && (0 <? msd2) && (msd2 <? digits)
                       then None else Some (sign * z0)%Z
                   end
          end)).
  { intros sign t Ht.
    destruct (match t with c :: _ => c =? 95 | [] => false end); [reflexivity|].
    destruct (scan_digits 0 0%Z 0 t) as [[[[prev z0] digits] rest]|] eqn:Es;
      [|reflexivity].
    apply scan_digits_count in Es.
    assert (Hd : (_PY_LONG_MAX_STR_DIGITS_THRESHOLD <? digits) = false).
    { apply N.ltb_ge. unfold _PY_LONG_MAX_STR_DIGITS_THRESHOLD. lia. }
    rewrite Hd. reflexivity. }
  destruct (skip_space s) as [|c s0]; [exact (Hgen 1%Z [] ltac:(cbn; lia))|].
  cbn [List.length] in Hskip.
  destruct (c =? 43); [exact (Hgen 1%Z s0 ltac:(lia))|].
  destruct (c =? 45); [exact (Hgen (-1)%Z s0 ltac:(lia))|].
  exact (Hgen 1%Z (c :: s0) ltac:(cbn [List.length]; lia)).
Qed.

Lemma int_any_limit : forall td msd1 msd2 x,
  (List.length x <= 640)%nat -> int td msd1 x = int td msd2 x.
Proof.
  intros td msd1 msd2 x Hlen.
  unfold int, _PyUnicode_TransformDecimalAndSpaceToASCII.
  destruct (forallb _ x).
  - apply PyLong_FromString_any_limit. exact Hlen.
  - apply PyLong_FromString_any_limit.
    pose proof (transform_length td x). lia.
Qed.

Lemma int_each_any_limit : forall td msd1 msd2 xs,
  (forall x, In x xs -> (List.length x <= 640)%nat) ->
  int_each td msd1 xs = int_each td msd2 xs.
Proof.
  intros td msd1 msd2; induction xs as [|x xs IH]; intros H; cbn [int_each];
    [reflexivity|].
  rewrite (int_any_limit td msd1 msd2 x) by (apply H; left; reflexivity).
  rewrite IH by (intros y Hy; apply H; right; exact Hy).
  reflexivity.
Qed.

(** C10, as the code has it: [_parse_version] depends on the content only.
    [_is_newer] depends on the two version strings and on the limit the
    interpreter puts on the digits of an integer string, and on nothing
    else: under one limit its boolean and its log records are the same
    for every instance and every history, and when no segment of either
    string is longer than 640 characters its boolean is the same under any
    two limits as well. *)
Theorem is_newer_depends_on_strings_and_digit_limit :
  forall td latest current,
    (forall self1 self2 content,
       _parse_version self1 content = _parse_version self2 content) /\
    (forall msd,
       exists newer events,
         forall self h,
           _is_newer td msd self latest current h = (Returned newer, h ++ events)) /\
    ((forall segment,
        In segment (split 46 latest) \/ In segment (split 46 current) ->
        (List.length segment <= 640)%nat) ->
     forall msd1 msd2 self1 self2 h1 h2,
       fst (_is_newer td msd1 self1 latest current h1)
       = fst (_is_newer td msd2 self2 latest current h2)).
Proof.
  intros td latest current. split; [|split].
  - reflexivity.
  - intros msd.
    exists (newer_value td msd latest current), (newer_events td msd latest current).
    intros self h. apply is_newer_outcome.
  - intros Hshort msd1 msd2 self1 self2 h1 h2.
    rewrite !is_newer_outcome. cbn [fst]. f_equal.
    unfold newer_value, parts.
    rewrite (int_each_any_limit td msd1 msd2 (split 46 latest))
      by (intros x Hx; apply Hshort; left; exact Hx).
    rewrite (int_each_any_limit td msd1 msd2 (split 46 current))
      by (intros x Hx; apply Hshort; right; exact Hx).
    reflexivity.
Qed.

Lemma is_newer_depends_on_strings_and_digit_limit_witness :
  fst (_is_newer unicode_14_decimal 640 installed_2_1_0
         (lit "2.10.0") (lit "2.9.9") [])
  = fst (_is_newer unicode_14_decimal 0 (__init__ (lit "1.0"))
           (lit "2.10.0") (lit "2.9.9") [Emit (no_update (lit "1.0"))]).
Proof.
  apply (proj2 (proj2 (is_newer_depends_on_strings_and_digit_limit
                         unicode_14_decimal (lit "2.10.0") (lit "2.9.9")))).
  intros segment [H|H]; cbn in H;
    repeat (destruct H as [<-|H]; [cbn [List.length]; lia|]); destruct H.
Defined.

(** C10 fails as stated: with the same two version strings, the first of
    641 digits, [_is_newer] returns [False] under a limit of 640 digits
    ([sys.set_int_max_str_digits(640)]) and [True] under the default limit
    of 4300. *)
Lemma is_newer_depends_on_digit_limit :
  fst (_is_newer unicode_14_decimal 640 installed_2_1_0
         (repeat 57 641) (lit "1") [])
  = Returned false
  /\ fst (_is_newer unicode_14_decimal default_max_str_digits installed_2_1_0
            (repeat 57 641) (lit "1") [])
     = Returned true.
Proof. split; vm_compute; reflexivity. Qed.

(** * Further properties *)

(** ** The signal of [run], case by case *)

Lemma signals_newer_events : forall td msd latest current,
  signals (newer_events td msd latest current) = [].
Proof.
  intros td msd latest current. unfold newer_events.
  destruct (parts td msd latest), (parts td msd current); reflexivity.
Qed.

Lemma newer_value_true : forall td msd latest current,
  newer_value td msd latest current = true <->
  exists remote local,
    version_tuple td msd latest remote /\
    version_tuple td msd current local /\
    lex_lt local remote.
Proof.
  intros td msd latest current. unfold newer_value. split.
  - destruct (parts td msd latest) as [remote|] eqn:El; [|discriminate].
    destruct (parts td msd current) as [local|] eqn:Ec; [|discriminate].
    intros H. exists remote, local.
    repeat split; try (apply parts_version_tuple; assumption).
    apply list_gt_lex_lt. exact H.
  - intros (remote & local & Hl & Hc & Hlt).
    apply parts_version_tuple in Hl, Hc. rewrite Hl, Hc.
    apply list_gt_lex_lt. exact Hlt.
Qed.

(** The signal of a run, computed from the answer of the network. *)
Lemma run_signal : forall td msd net self h,
  signals (snd (run td msd net self h)) =
  signals h ++
  match net (sent_request self) REQUEST_TIMEOUT with
  | Raised e =>
      if isinstance e cls_Exception
      then [check_failed (failure_message e)]
      else []
  | Returned content =>
      [match _parse_version self content with
       | None => check_failed parse_failure_message
       | Some latest =>
           if newer_value td msd latest (current_version self)
           then update_available latest (current_version self)
           else no_update (current_version self)
       end]
  end.
Proof.
  intros td msd net self h.
  destruct (net (sent_request self) REQUEST_TIMEOUT) as [content|e] eqn:Hnet.
  - destruct (_parse_version self content) as [latest|] eqn:Hp.
    + rewrite (run_version td msd net self content latest h Hnet Hp).
      cbn [snd]. rewrite !signals_app, signals_newer_events.
      destruct (newer_value td msd latest (current_version self)); reflexivity.
    + rewrite (run_no_version td msd net self content h Hnet Hp).
      cbn [snd]. rewrite signals_app. reflexivity.
  - destruct (isinstance e cls_Exception) eqn:Hx.
    + rewrite (run_raised td msd net self e h Hnet Hx).
      cbn [snd]. rewrite signals_app. reflexivity.
    + rewrite (run_propagates td msd net self e h Hnet Hx).
      cbn [snd]. rewrite signals_app. reflexivity.
Qed.

Lemma failure_message_not_parse : forall e,
  failure_message e <> parse_failure_message.
Proof.
  intros e. unfold failure_message.
  destruct (isinstance e cls_URLError); [discriminate|].
  destruct (isinstance e cls_TimeoutError); discriminate.
Qed.

(** X1: [run] announces an update only for good reason: it emits
    [update_available latest current] exactly when the fetch returned a
    content whose version is [latest], [current] is the current version of
    the instance, the segments of both strings parse as integers, and the
    remote tuple is above the local one. *)
Theorem run_update_available_iff :
  forall td msd net self h latest current,
    signals (snd (run td msd net self h))
      = signals h ++ [update_available latest current]
    <->
    exists content remote local,
      net (sent_request self) REQUEST_TIMEOUT = Returned content /\
      _parse_version self content = Some latest /\
      current = current_version self /\
      version_tuple td msd latest remote /\
      version_tuple td msd current local /\
      lex_lt local remote.
Proof.
  intros td msd net self h latest current. rewrite run_signal. split.
  - intros H. apply app_inv_head in H.
    destruct (net (sent_request self) REQUEST_TIMEOUT) as [content|e];
      [|destruct (isinstance e cls_Exception); discriminate].
    destruct (_parse_version self content) as [l|] eqn:Hp; [|discriminate].
    destruct (newer_value td msd l (current_version self)) eqn:E; [|discriminate].
    injection H as -> <-.
    apply newer_value_true in E. destruct E as (remote & local & Hl & Hc & Hlt).
    exists content, remote, local. auto 10.
  - intros (content & remote & local & -> & -> & -> & Hl & Hc & Hlt).
    assert (E : newer_value td msd latest (current_version self) = true)
      by (apply newer_value_true; eauto).
    rewrite E. reflexivity.
Qed.

(** X2: [run] emits [check_failed] exactly when the fetch raised an
    instance of [Exception], with the message of the matching clause, or
    returned a content without version, with the parse message; and the
    parse message never stands for an exception of the fetch. *)
Theorem run_check_failed_iff :
  forall td msd net self h message,
    (signals (snd (run td msd net self h)) = signals h ++ [check_failed message]
     <->
     (exists e, net (sent_request self) REQUEST_TIMEOUT = Raised e /\
                isinstance e cls_Exception = true /\
                message = failure_message e)
     \/ (exists content,
           net (sent_request self) REQUEST_TIMEOUT = Returned content /\
           _parse_version self content = None /\
           message = parse_failure_message))
    /\
    (signals (snd (run td msd net self h))
       = signals h ++ [check_failed parse_failure_message]
     <->
     exists content,
       net (sent_request self) REQUEST_TIMEOUT = Returned content /\
       _parse_version self content = None).
Proof.
  intros td msd net self h message. rewrite run_signal. split; split.
  - intros H. apply app_inv_head in H.
    destruct (net (sent_request self) REQUEST_TIMEOUT) as [content|e].
    + right. destruct (_parse_version self content) as [l|] eqn:Hp.
      * destruct (newer_value td msd l (current_version self)); discriminate.
      * injection H as <-. exists content. auto.
    + left. destruct (isinstance e cls_Exception) eqn:Hx; [|discriminate].
      injection H as <-. exists e. auto.
  - intros [(e & -> & Hx & ->)|(content & -> & -> & ->)];
      [rewrite Hx|]; reflexivity.
  - intros H. apply app_inv_head in H.
    destruct (net (sent_request self) REQUEST_TIMEOUT) as [content|e].
    + destruct (_parse_version self content) as [l|] eqn:Hp;
        [|exists content; auto].
      destruct (newer_value td msd l (current_version self)); discriminate.
    + destruct (isinstance e cls_Exception); [|discriminate].
      injection H as H. exfalso. exact (failure_message_not_parse e H).
  - intros (content & -> & ->). reflexivity.
Qed.

(** X3: [run] emits [no_update current] exactly when the fetch returned a
    content with a version, [current] is the current version of the
    instance, and it is not the case that both strings parse with the
    remote tuple above the local one. *)
Theorem run_no_update_iff :
  forall td msd net self h current,
    signals (snd (run td msd net self h)) = signals h ++ [no_update current]
    <->
    exists content latest,
      net (sent_request self) REQUEST_TIMEOUT = Returned content /\
      _parse_version self content = Some latest /\
      current = current_version self /\
      ~ (exists remote local,
           version_tuple td msd latest remote /\
           version_tuple td msd current local /\
           lex_lt local remote).
Proof.
  intros td msd net self h current. rewrite run_signal. split.
  - intros H. apply app_inv_head in H.
    destruct (net (sent_request self) REQUEST_TIMEOUT) as [content|e];
      [|destruct (isinstance e cls_Exception); discriminate].
    destruct (_parse_version self content) as [l|] eqn:Hp; [|discriminate].
    destruct (newer_value td msd l (current_version self)) eqn:E; [discriminate|].
    injection H as <-. exists content, l.
    split; [reflexivity|]. split; [exact Hp|]. split; [reflexivity|].
    intros Hex. apply newer_value_true in Hex. congruence.
  - intros (content & latest & -> & -> & -> & Hn).
    destruct (newer_value td msd latest (current_version self)) eqn:E;
      [|reflexivity].
    exfalso. apply Hn, newer_value_true. exact E.
Qed.

(** ** The events of a run *)


(** X11: a checker created with the installed VERSION that fetches a
    content whose version is this very string emits [no_update] with it,
    whether the string parses as a tuple of integers or not. *)
Theorem same_version_is_up_to_date :
  forall td msd net VERSION content h,
    net (sent_request (__init__ VERSION)) REQUEST_TIMEOUT = Returned content ->
    _parse_version (__init__ VERSION) content = Some VERSION ->
    fst (run td msd net (__init__ VERSION) h) = Returned tt /\
    signals (snd (run td msd net (__init__ VERSION) h))
      = signals h ++ [no_update VERSION].
Proof.
  intros td msd net VERSION content h Hnet Hp.
  rewrite (run_version td msd net (__init__ VERSION) content VERSION h Hnet Hp).
  cbn [fst snd current_version __init__].
  rewrite !signals_app, signals_newer_events.
  assert (E : newer_value td msd VERSION VERSION = false).
  { unfold newer_value. destruct (parts td msd VERSION); [apply list_gt_irrefl | reflexivity]. }
  rewrite E. split; reflexivity.
Qed.

Lemma same_version_is_up_to_date_witness :
  _parse_version (__init__ (lit "2.1.0-dev")) (init_py (lit "2.1.0-dev"))
    = Some (lit "2.1.0-dev")
  /\ signals (snd (run unicode_14_decimal default_max_str_digits
                     (responds (init_py (lit "2.1.0-dev")))
                     (__init__ (lit "2.1.0-dev")) []))
     = [no_update (lit "2.1.0-dev")].
Proof.
  split; [reflexivity|].
  exact (proj2 (same_version_is_up_to_date unicode_14_decimal
                  default_max_str_digits (responds (init_py (lit "2.1.0-dev")))
                  (lit "2.1.0-dev") (init_py (lit "2.1.0-dev")) []
                  eq_refl eq_refl)).
Defined.

(** ** [_is_newer] as an order *)

Lemma is_newer_returns_value : forall td msd latest current b,
  is_newer_returns td msd latest current b <->
  newer_value td msd latest current = b.
Proof.
  intros td msd latest current b. unfold is_newer_returns. split.
  - intros H. specialize (H installed_2_1_0 []).
    rewrite is_newer_outcome in H. cbn [fst] in H. congruence.
  - intros <- self h. rewrite is_newer_outcome. reflexivity.
Qed.

(** X6: [_is_newer] never holds in both directions nor of a string and
    itself, and it is transitive, for all strings, parsable or not; on
    strings that parse, either one is newer than the other or the two
    tuples are equal. *)
Theorem is_newer_strict_order :
  forall td msd,
    (forall a, is_newer_returns td msd a a false) /\
    (forall a b,
       is_newer_returns td msd a b true -> is_newer_returns td msd b a false) /\
    (forall a b c,
       is_newer_returns td msd a b true -> is_newer_returns td msd b c true ->
       is_newer_returns td msd a c true) /\
    (forall a b ta tb,
       version_tuple td msd a ta -> version_tuple td msd b tb ->
       is_newer_returns td msd a b true \/ ta = tb
       \/ is_newer_returns td msd b a true).
Proof.
  intros td msd. split; [|split; [|split]].
  - intros a. apply is_newer_returns_value. unfold newer_value.
    destruct (parts td msd a); [apply list_gt_irrefl | reflexivity].
  - intros a b H. apply is_newer_returns_value in H. apply is_newer_returns_value.
    apply newer_value_true in H. destruct H as (ta & tb & Ha & Hb & Hlt).
    destruct (newer_value td msd b a) eqn:E; [|reflexivity].
    apply newer_value_true in E. destruct E as (tb' & ta' & Hb' & Ha' & Hlt').
    apply parts_version_tuple in Ha, Hb, Ha', Hb'.
    assert (ta' = ta) by congruence. assert (tb' = tb) by congruence. subst.
    exfalso. exact (lex_lt_irrefl _ (lex_lt_trans _ _ _ Hlt Hlt')).
  - intros a b c Hab Hbc.
    apply is_newer_returns_value in Hab, Hbc. apply is_newer_returns_value.
    apply newer_value_true in Hab, Hbc. apply newer_value_true.
    destruct Hab as (ta & tb & Ha & Hb & Hlt).
    destruct Hbc as (tb' & tc & Hb' & Hc & Hlt').
    apply parts_version_tuple in Hb, Hb'.
    assert (tb' = tb) by congruence. subst.
    exists ta, tc. repeat split; try assumption.
    exact (lex_lt_trans _ _ _ Hlt' Hlt).
  - intros a b ta tb Ha Hb.
    destruct (lex_lt_total ta tb) as [H|[H|H]].
    + right; right. apply is_newer_returns_value, newer_value_true. eauto.
    + right; left. exact H.
    + left. apply is_newer_returns_value, newer_value_true. eauto.
Qed.

(** ** Versions with more components *)

Lemma split_nonempty : forall sep s, split sep s <> [].
Proof.
  intros sep s; destruct s as [|ch s]; cbn [split]; [discriminate|].
  destruct (ch =? sep); [discriminate|].
  destruct (split sep s); discriminate.
Qed.

(** Splitting at a separator splits the pieces around it separately. *)
Lemma split_app : forall sep a b,
  split sep (a ++ sep :: b) = split sep a ++ split sep b.
Proof.
  intros sep a b; induction a as [|ch a IH]; cbn [app split].
  - rewrite N.eqb_refl. reflexivity.
  - destruct (ch =? sep); [rewrite IH; reflexivity|].
    rewrite IH. pose proof (split_nonempty sep a) as Hne.
    destruct (split sep a) as [|w ws]; [congruence | reflexivity].
Qed.

Lemma split_no_sep : forall sep s, ~ In sep s -> split sep s = [s].
Proof.
  intros sep s; induction s as [|ch s IH]; intros H; cbn [split]; [reflexivity|].
  destruct (N.eqb_spec ch sep) as [->|Hne]; [exfalso; apply H; left; reflexivity|].
  rewrite IH; [reflexivity|]. intros Hin; apply H; right; exact Hin.
Qed.

Lemma int_each_app : forall td msd xs ys,
  int_each td msd (xs ++ ys) =
  match int_each td msd xs, int_each td msd ys with
  | Some vs, Some ws => Some (vs ++ ws)
  | _, _ => None
  end.
Proof.
  intros td msd xs ys; induction xs as [|x xs IH]; cbn [app int_each].
  - destruct (int_each td msd ys); reflexivity.
  - destruct (int td msd x); [|reflexivity].
    rewrite IH. destruct (int_each td msd xs), (int_each td msd ys); reflexivity.
Qed.

Lemma parts_app : forall td msd a b,
  parts td msd (a ++ 46 :: b) =
  match parts td msd a, parts td msd b with
  | Some ta, Some tb => Some (ta ++ tb)
  | _, _ => None
  end.
Proof.
  intros td msd a b. unfold parts. rewrite split_app. apply int_each_app.
Qed.

(** X7: the tuple of two version strings joined by a dot is the tuple of
    the first followed by the tuple of the second, and the joined string
    parses exactly when both do. *)
Theorem parts_joined :
  forall td msd a b,
    parts td msd (a ++ [46] ++ b) =
    match parts td msd a, parts td msd b with
    | Some ta, Some tb => Some (ta ++ tb)
    | _, _ => None
    end.
Proof.
  intros td msd a b. cbn [app]. apply parts_app.
Qed.

(** X8: a version string that parses, extended by a dot and one more
    segment that parses, is newer than the string itself and never the
    other way round, whatever the value of the added component: 2.1.0 is
    newer than 2.1. *)
Theorem longer_version_is_newer :
  forall td msd version segment tuple z,
    version_tuple td msd version tuple ->
    ~ In 46 segment ->
    int td msd segment = Some z ->
    is_newer_returns td msd (version ++ [46] ++ segment) version true /\
    is_newer_returns td msd version (version ++ [46] ++ segment) false.
Proof.
  intros td msd version segment tuple z Hv Hdot Hz.
  apply parts_version_tuple in Hv.
  assert (Hs : parts td msd segment = Some [z]).
  { unfold parts. rewrite (split_no_sep _ _ Hdot). cbn [int_each].
    rewrite Hz. reflexivity. }
  assert (Hj : parts td msd (version ++ [46] ++ segment) = Some (tuple ++ [z]))
    by (cbn [app]; rewrite parts_app, Hv, Hs; reflexivity).
  assert (Hlt : lex_lt tuple (tuple ++ [z]))
    by (left; exists [z]; split; [discriminate | reflexivity]).
  split; apply is_newer_returns_value; unfold newer_value; rewrite Hj, Hv.
  - apply list_gt_lex_lt. exact Hlt.
  - destruct (list_gt tuple (tuple ++ [z])) eqn:E; [|reflexivity].
    apply list_gt_lex_lt in E.
    exfalso. exact (lex_lt_irrefl _ (lex_lt_trans _ _ _ Hlt E)).
Qed.

Lemma longer_version_is_newer_witness :
  version_tuple unicode_14_decimal default_max_str_digits (lit "2.1") [2; 1]%Z
  /\ is_newer_returns unicode_14_decimal default_max_str_digits
       (lit "2.1" ++ [46] ++ lit "0") (lit "2.1") true.
Proof.
  split; [repeat constructor|].
  refine (proj1 (longer_version_is_newer unicode_14_decimal
                   default_max_str_digits (lit "2.1") (lit "0") [2; 1]%Z 0%Z
                   ltac:(repeat constructor) _ eq_refl)).
  vm_compute. intuition discriminate.
Defined.

(** ** Version strings that hold other characters *)

Lemma skip_space_keeps : forall ch s,
  not_in_int_literal ch = true -> In ch s -> In ch (skip_space s).
Proof.
  intros ch s Hbad; induction s as [|c s IH]; cbn [skip_space]; intros Hin;
    [exact Hin|].
  destruct (Py_ISSPACE c) eqn:E; [|exact Hin].
  destruct Hin as [->|Hin]; [|exact (IH Hin)].
  unfold not_in_int_literal in Hbad. rewrite E in Hbad.
  rewrite andb_false_r in Hbad. discriminate.
Qed.

Lemma not_in_int_literal_facts : forall ch,
  not_in_int_literal ch = true ->
  (ch <=? 127) = true /\ digit_value ch = None /\
  ch <> 43 /\ ch <> 45 /\ ch <> 95.
Proof.
  intros ch H. unfold not_in_int_literal in H.
  repeat (apply andb_true_iff in H; destruct H as [H ?]).
  repeat match goal with
         | Hn : negb (_ =? _) = true |- _ =>
             apply negb_true_iff, N.eqb_neq in Hn
         end.
  destruct (digit_value ch); [discriminate|]. auto.
Qed.

Lemma scan_digits_keeps : forall ch s prev z digits prev' z' digits' rest,
  not_in_int_literal ch = true -> In ch s ->
  scan_digits prev z digits s = Some (prev', z', digits', rest) ->
  In ch rest.
Proof.
  intros ch s; induction s as [|c s IH]; cbn [scan_digits];
    intros prev z digits prev' z' digits' rest Hbad Hin H; [destruct Hin|].
  destruct (not_in_int_literal_facts ch Hbad) as (_ & Hd & _ & _ & H95).
  destruct (N.eqb_spec c 95) as [->|Hc].
  - destruct (prev =? 95); [discriminate|].
    destruct Hin as [E|Hin]; [congruence|]. eapply IH; eauto.
  - destruct (digit_value c) eqn:Ed.
    + destruct Hin as [E|Hin]; [subst c; congruence|]. eapply IH; eauto.
    + injection H as _ _ _ <-. exact Hin.
Qed.

Lemma PyLong_FromString_rejects : forall msd ch s,
  not_in_int_literal ch = true -> In ch s -> PyLong_FromString msd s = None.
Proof.
  intros msd ch s Hbad Hin. unfold PyLong_FromString.
  apply (skip_space_keeps ch s Hbad) in Hin.
  destruct (not_in_int_literal_facts ch Hbad) as (_ & _ & H43 & H45 & _).
  assert (Hgen : forall (sign : Z) t, In ch t ->
    (if match t with c :: _ => c =? 95 | [] => false end then None
     else match scan_digits 0 0%Z 0 t with
          | None => None
          | Some (prev, z0, digits, rest) =>
              if prev =? 95 then None
              else if Nat.eqb (List.length rest) (List.length t) then None
              else match skip_space rest with
                   | _ :: _ => None
                   | [] =>
                       if (_PY_LONG_MAX_STR_DIGITS_THRESHOLD <? digits)
                          && (0 <? msd) && (msd <? digits)
                       then None else Some (sign * z0)%Z
                   end
          end) = None).
  { intros sign t Ht.
    destruct (match t with c :: _ => c =? 95 | [] => false end); [reflexivity|].
    destruct (scan_digits 0 0%Z 0 t) as [[[[prev z0] digits] rest]|] eqn:Es;
      [|reflexivity].
    apply (scan_digits_keeps ch t _ _ _ _ _ _ _ Hbad Ht) in Es.
    destruct (prev =? 95); [reflexivity|].
    destruct (Nat.eqb _ _); [reflexivity|].
    apply (skip_space_keeps ch rest Hbad) in Es.
    destruct (skip_space rest); [destruct Es | reflexivity]. }
  destruct (skip_space s) as [|c s0]; [destruct Hin|].
  destruct (N.eqb_spec c 43) as [->|H1].
  - destruct Hin as [E|Hin]; [congruence|]. exact (Hgen 1%Z s0 Hin).
  - destruct (N.eqb_spec c 45) as [->|H2].
    + destruct Hin as [E|Hin]; [congruence|]. exact (Hgen (-1)%Z s0 Hin).
    + exact (Hgen 1%Z (c :: s0) Hin).
Qed.

Lemma transform_keeps : forall td ch u,
  (ch = 127 -> td 127 = None) ->
  not_in_int_literal ch = true -> In ch u ->
  exists ch', not_in_int_literal ch' = true /\ In ch' (transform td u).
Proof.
  intros td ch u Htd Hbad; induction u as [|c u IH]; cbn [transform]; intros Hin;
    [destruct Hin|].
  destruct (not_in_int_literal_facts ch Hbad) as (Hle & _).
  apply N.leb_le in Hle.
  destruct (c <? 127) eqn:Ec.
  - destruct Hin as [->|Hin].
    + exists ch; split; [exact Hbad | left; reflexivity].
    + destruct (IH Hin) as (ch' & Hb & Hi). exists ch'; split; [exact Hb | right; exact Hi].
  - apply N.ltb_ge in Ec. destruct Hin as [->|Hin].
    + assert (E : ch = 127) by lia. subst ch.
      change (Py_UNICODE_ISSPACE 127) with false. cbv iota.
      rewrite (Htd eq_refl).
      exists 63; split; [reflexivity | left; reflexivity].
    + destruct (IH Hin) as (ch' & Hb & Hi).
      destruct (Py_UNICODE_ISSPACE c).
      * exists ch'; split; [exact Hb | right; exact Hi].
      * destruct (td c).
        -- exists ch'; split; [exact Hb | right; exact Hi].
        -- exists 63; split; [reflexivity | left; reflexivity].
Qed.

Lemma int_rejects_character : forall td msd ch x,
  (ch = 127 -> td 127 = None) ->
  not_in_int_literal ch = true -> In ch x -> int td msd x = None.
Proof.
  intros td msd ch x Htd Hbad Hin.
  unfold int, _PyUnicode_TransformDecimalAndSpaceToASCII.
  destruct (forallb _ x).
  - exact (PyLong_FromString_rejects msd ch x Hbad Hin).
  - destruct (transform_keeps td ch x Htd Hbad Hin) as (ch' & Hb & Hi).
    exact (PyLong_FromString_rejects msd ch' _ Hb Hi).
Qed.

Lemma split_keeps : forall sep ch s,
  ch <> sep -> In ch s -> exists w, In w (split sep s) /\ In ch w.
Proof.
  intros sep ch s Hne; induction s as [|c s IH]; intros Hin; [destruct Hin|].
  cbn [split]. destruct (N.eqb_spec c sep) as [->|Hc].
  - destruct Hin as [E|Hin]; [congruence|].
    destruct (IH Hin) as (w & Hw & Hi). exists w; split; [right; exact Hw | exact Hi].
  - pose proof (split_nonempty sep s) as Hs.
    destruct (split sep s) as [|w0 ws] eqn:E; [congruence|].
    destruct Hin as [->|Hin].
    + exists (ch :: w0); split; left; reflexivity.
    + destruct (IH Hin) as (w & [<-|Hw] & Hi).
      * exists (c :: w0); split; [left; reflexivity | right; exact Hi].
      * exists w; split; [right; exact Hw | exact Hi].
Qed.

Lemma letter_not_in_int_literal : forall ch,
  is_ascii_letter ch = true -> not_in_int_literal ch = true /\ ch <> 46.
Proof.
  intros ch H. unfold is_ascii_letter in H.
  unfold not_in_int_literal, Py_ISSPACE, digit_value.
  apply orb_true_iff in H.
  assert (Hr : 65 <= ch <= 122).
  { destruct H as [H|H]; apply andb_true_iff in H; destruct H as [H1 H2];
      apply N.leb_le in H1, H2; lia. }
  destruct Hr as [Hlo Hhi].
  assert (E1 : (ch <=? 127) = true) by (apply N.leb_le; lia).
  assert (E2 : (ch <=? 13) = false) by (apply N.leb_gt; lia).
  assert (E3 : (ch =? 32) = false) by (apply N.eqb_neq; lia).
  assert (E4 : (ch <=? 57) = false) by (apply N.leb_gt; lia).
  assert (E5 : (ch =? 43) = false) by (apply N.eqb_neq; lia).
  assert (E6 : (ch =? 45) = false) by (apply N.eqb_neq; lia).
  assert (E7 : (ch =? 95) = false).
  { apply N.eqb_neq. intros ->. destruct H as [H|H]; discriminate H. }
  rewrite E1, E2, E3, E4, E5, E6, E7, !andb_false_r. split; [reflexivity | lia].
Qed.

(** X9: a version string that holds an ASCII character, U+0000 to U+007F,
    other than a digit, a C-locale space, a sign, an underscore or the
    dot, for instance a letter as in 1.0rc1 or 2.0.0-beta, does not parse:
    [_is_newer] returns [False] with the string on either side, after one
    warning.  (For U+007F the table of the interpreter must give it no
    digit value, as every Unicode database does.) *)
Theorem version_with_other_character_is_never_newer :
  forall td msd ch latest current,
    not_in_int_literal ch = true ->
    (ch = 127 -> td 127 = None) ->
    ch <> 46 ->
    In ch latest \/ In ch current ->
    (In ch latest -> unparsable td msd latest) /\
    (In ch current -> unparsable td msd current) /\
    forall self h,
      _is_newer td msd self latest current h =
      (Returned false,
       h ++ [Log WARNING (lit "Could not parse versions: " ++ latest
                          ++ lit " vs " ++ current)]).
Proof.
  intros td msd ch latest current Hbad Htd Hdot Hin.
  assert (Hun : forall v, In ch v -> unparsable td msd v).
  { intros v Hv. destruct (split_keeps 46 ch v Hdot Hv) as (w & Hw & Hi).
    exists w; split;
      [exact Hw | exact (int_rejects_character td msd ch w Htd Hbad Hi)]. }
  split; [apply Hun|]. split; [apply Hun|].
  assert (Hor : unparsable td msd latest \/ unparsable td msd current)
    by (destruct Hin as [H|H]; [left | right]; apply Hun; exact H).
  intros self h.
  rewrite <- !parts_unparsable in Hor.
  rewrite is_newer_outcome. unfold newer_value, newer_events.
  destruct Hor as [-> | ->]; [reflexivity|].
  destruct (parts td msd latest); reflexivity.
Qed.

Lemma version_with_other_character_is_never_newer_witness :
  In 98 (lit "3.0.0-beta")
  /\ fst (_is_newer unicode_14_decimal default_max_str_digits installed_2_1_0
            (lit "3.0.0-beta") (lit "2.1.0") [])
     = Returned false
  /\ fst (_is_newer unicode_14_decimal default_max_str_digits installed_2_1_0
            (lit "2.1.0") [50; 46; 127] [])
     = Returned false.
Proof.
  split; [right; right; right; right; right; right; left; reflexivity|].
  split.
  - refine (f_equal fst
      (proj2 (proj2 (version_with_other_character_is_never_newer
                unicode_14_decimal default_max_str_digits 98
                (lit "3.0.0-beta") (lit "2.1.0") eq_refl _ _ (or_introl _)))
         installed_2_1_0 [])).
    + discriminate.
    + discriminate.
    + right; right; right; right; right; right; left; reflexivity.
  - refine (f_equal fst
      (proj2 (proj2 (version_with_other_character_is_never_newer
                unicode_14_decimal default_max_str_digits 127
                (lit "2.1.0") [50; 46; 127] eq_refl _ _ (or_intror _)))
         installed_2_1_0 [])).
    + reflexivity.
    + discriminate.
    + right; right; left; reflexivity.
Defined.

(** ** Where [_parse_version] looks *)

Lemma token_starts_with_V : forall t value,
  token t value -> exists t', t = 86 :: t'.
Proof.
  intros t value H; destruct H. eexists; reflexivity.
Qed.

Lemma token_length : forall t value,
  token t value -> (List.length value + 10 <= List.length t)%nat.
Proof.
  intros t value H; destruct H as [ws1 ws2 q1 q2 value _ _ _ _ Hne _].
  repeat (rewrite length_app; cbn [List.length]).
  change (List.length (lit "VERSION")) with 7%nat. lia.
Qed.

(** A token in [pre ++ body] cannot start within [pre] when [pre] holds no
    letter V. *)
Lemma occurs_at_behind : forall pre body j value,
  ~ In 86 pre ->
  (occurs_at (pre ++ body) j value <->
   exists i, j = (List.length pre + i)%nat /\ occurs_at body i value).
Proof.
  intros pre body j value HV. split.
  - intros (p & t & post & E & Hl & Ht).
    destruct (Nat.le_gt_cases (List.length pre) (List.length p)) as [Hle|Hgt].
    + destruct (app_eq_shorter _ _ _ _ E Hle) as (d & -> & ->).
      exists (List.length d). split; [rewrite <- Hl, length_app; reflexivity|].
      exists d, t, post. auto.
    + exfalso. symmetry in E.
      destruct (app_eq_shorter _ _ _ _ E ltac:(lia)) as (d & -> & E').
      destruct (token_starts_with_V _ _ Ht) as (t' & ->).
      destruct d as [|c d]; [rewrite length_app in Hgt; cbn in Hgt; lia|].
      injection E' as <- _. apply HV. apply in_or_app. right; left; reflexivity.
  - intros (i & -> & (p & t & post & -> & <- & Ht)).
    exists (pre ++ p), t, post. rewrite <- app_assoc, length_app. auto.
Qed.

(** X10: text before the first letter V does not matter: for a text [pre]
    without V, [_parse_version] finds in [pre ++ body] what it finds in
    [body].  (The name may be the end of a longer one, as in
    MIN_VERSION.) *)
Theorem parse_version_skips_text_without_V :
  forall self pre body,
    ~ In 86 pre ->
    _parse_version self (pre ++ body) = _parse_version self body.
Proof.
  intros self pre body HV.
  assert (Hiff : forall value,
    _parse_version self body = Some value ->
    _parse_version self (pre ++ body) = Some value).
  { intros value H. apply parse_version_leftmost in H.
    destruct H as (i & Ho & Hfirst).
    apply parse_version_leftmost. exists (List.length pre + i)%nat. split.
    - apply occurs_at_behind; [exact HV | eauto].
    - intros j v' Hj Hoj. apply (occurs_at_behind pre body j v' HV) in Hoj.
      destruct Hoj as (k & -> & Hk). apply (Hfirst k v'); [lia | exact Hk]. }
  destruct (_parse_version self body) as [value|] eqn:E.
  - apply Hiff. reflexivity.
  - apply parse_version_None. intros j v Hoj.
    apply (occurs_at_behind pre body j v HV) in Hoj.
    destruct Hoj as (k & _ & Hk).
    exact (proj1 (parse_version_None self body) E k v Hk).
Qed.

Lemma parse_version_skips_text_without_V_witness :
  _parse_version installed_2_1_0 (lit "MIN_" ++ init_py (lit "1.5"))
  = _parse_version installed_2_1_0 (init_py (lit "1.5")).
Proof.
  apply (parse_version_skips_text_without_V installed_2_1_0 (lit "MIN_")).
  vm_compute. intuition discriminate.
Defined.

Lemma parse_version_needs_eleven : forall self content value,
  _parse_version self content = Some value ->
  (11 <= List.length content)%nat.
Proof.
  intros self content value H. apply parse_version_leftmost in H.
  destruct H as (i & (pre & t & post & -> & _ & Ht) & _).
  pose proof (token_length _ _ Ht) as Hlen.
  assert (Hne : value <> []) by (destruct Ht; assumption).
  destruct value as [|c value]; [congruence|].
  cbn [List.length] in Hlen. rewrite !length_app. lia.
Qed.

(** X12: a value [_parse_version] returns is text of the content: it stands
    there between two quote characters, and the content is at least ten
    characters longer than it. *)
Theorem parse_version_value_is_quoted_text :
  forall self content value,
    _parse_version self content = Some value ->
    exists before q1 q2 after,
      content = before ++ [q1] ++ value ++ [q2] ++ after /\
      is_quote q1 /\ is_quote q2 /\
      (List.length value + 10 <= List.length content)%nat.
Proof.
  intros self content value H. apply parse_version_leftmost in H.
  destruct H as (i & (pre & t & post & -> & _ & Ht) & _).
  pose proof (token_length _ _ Ht) as Hlen.
  destruct Ht as [ws1 ws2 q1 q2 value Hw1 Hw2 Hq1 Hq2 Hne Hv].
  exists (pre ++ lit "VERSION" ++ ws1 ++ [61] ++ ws2), q1, q2, post.
  split; [repeat rewrite <- app_assoc; reflexivity|].
  split; [exact Hq1|]. split; [exact Hq2|].
  rewrite !length_app in *. lia.
Qed.

Lemma parse_version_value_is_quoted_text_witness :
  exists before q1 q2 after,
    lit "x = 1; " ++ init_py (lit "3.0.0")
      = before ++ [q1] ++ lit "3.0.0" ++ [q2] ++ after /\
    is_quote q1 /\ is_quote q2 /\
    (List.length (lit "3.0.0") + 10
     <= List.length (lit "x = 1; " ++ init_py (lit "3.0.0")))%nat.
Proof.
  exact (parse_version_value_is_quoted_text installed_2_1_0
           (lit "x = 1; " ++ init_py (lit "3.0.0")) (lit "3.0.0") eq_refl).
Defined.

(** X13: a content of fewer than eleven characters, the empty response
    among them, has no version: [run] emits [check_failed] with the parse
    message. *)
Theorem short_content_reports_parse_failure :
  forall td msd net self content h,
    net (sent_request self) REQUEST_TIMEOUT = Returned content ->
    (List.length content < 11)%nat ->
    _parse_version self content = None /\
    signals (snd (run td msd net self h))
      = signals h ++ [check_failed parse_failure_message].
Proof.
  intros td msd net self content h Hnet Hlen.
  assert (Hp : _parse_version self content = None).
  { destruct (_parse_version self content) as [value|] eqn:E; [|reflexivity].
    pose proof (parse_version_needs_eleven self content value E). lia. }
  split; [exact Hp|].
  rewrite run_signal, Hnet, Hp. reflexivity.
Qed.

Lemma short_content_reports_parse_failure_witness :
  signals (snd (run unicode_14_decimal default_max_str_digits
                  (responds []) installed_2_1_0 []))
  = [check_failed parse_failure_message].
Proof.
  refine (proj2 (short_content_reports_parse_failure unicode_14_decimal
                   default_max_str_digits (responds []) installed_2_1_0 [] []
                   eq_refl _)).
  cbn [List.length]. lia.
Defined.

(** ** The limit on the number of digits *)

Lemma scan_digits_all_digits : forall s prev z digits,
  Forall (fun ch => is_ascii_digit ch = true) s ->
  exists prev' z',
    scan_digits prev z digits s
      = Some (prev', z', digits + N.of_nat (List.length s), [])
    /\ (s = [] -> prev' = prev)
    /\ (s <> [] -> (prev' =? 95) = false).
Proof.
  induction s as [|ch s IH]; intros prev z digits Hs.
  - exists prev, z. cbn [scan_digits List.length]. rewrite N.add_0_r.
    split; [reflexivity|]. split; [reflexivity | congruence].
  - inversion Hs as [|c l Hch Hs']; subst.
    assert (H95 : (ch =? 95) = false).
    { apply N.eqb_neq; intros ->. discriminate Hch. }
    cbn [scan_digits]. rewrite H95. unfold digit_value.
    fold (is_ascii_digit ch). rewrite Hch.
    destruct (IH ch (10 * z + Z.of_N (ch - 48))%Z (digits + 1) Hs')
      as (prev' & z' & E & Hnil & Hcons).
    exists prev', z'. split; [|split; [discriminate|]].
    + rewrite E.
      replace (digits + 1 + N.of_nat (List.length s))
        with (digits + N.of_nat (List.length (ch :: s)))
        by (cbn [List.length]; lia).
      reflexivity.
    + intros _. destruct s as [|c s].
      * rewrite (Hnil eq_refl). exact H95.
      * apply Hcons. discriminate.
Qed.

Lemma int_of_digits : forall td msd segment,
  segment <> [] ->
  Forall (fun ch => is_ascii_digit ch = true) segment ->
  (int td msd segment = None <->
   640 < N.of_nat (List.length segment) /\ 0 < msd
   /\ msd < N.of_nat (List.length segment)).
Proof.
  intros td msd segment Hne Hs.
  assert (Hascii : forallb (fun ch => ch <? 128) segment = true).
  { apply forallb_forall. intros ch Hin.
    rewrite Forall_forall in Hs. specialize (Hs ch Hin).
    unfold is_ascii_digit in Hs. apply andb_true_iff in Hs. destruct Hs as [_ H].
    apply N.leb_le in H. apply N.ltb_lt. lia. }
  unfold int, _PyUnicode_TransformDecimalAndSpaceToASCII. rewrite Hascii.
  destruct (scan_digits_all_digits segment 0 0%Z 0 Hs)
    as (prev' & z' & Hscan & _ & Hp).
  specialize (Hp Hne). rewrite N.add_0_l in Hscan.
  destruct segment as [|ch s]; [congruence|].
  assert (Hrange : 48 <= ch <= 57).
  { inversion Hs as [|c l Hch _]; subst.
    unfold is_ascii_digit in Hch. apply andb_true_iff in Hch.
    destruct Hch as [H1 H2]. apply N.leb_le in H1, H2. lia. }
  unfold PyLong_FromString. cbn [skip_space]. unfold Py_ISSPACE.
  replace (ch <=? 13) with false by (symmetry; apply N.leb_gt; lia).
  replace (ch =? 32) with false by (symmetry; apply N.eqb_neq; lia).
  rewrite andb_false_r. cbn [orb].
  replace (ch =? 43) with false by (symmetry; apply N.eqb_neq; lia).
  replace (ch =? 45) with false by (symmetry; apply N.eqb_neq; lia).
  cbv beta iota zeta.
  replace (ch =? 95) with false by (symmetry; apply N.eqb_neq; lia).
  rewrite Hscan, Hp. cbn [List.length Nat.eqb skip_space].
  unfold _PY_LONG_MAX_STR_DIGITS_THRESHOLD.
  destruct ((640 <? N.of_nat (S (List.length s))) && (0 <? msd)
            && (msd <? N.of_nat (S (List.length s)))) eqn:E.
  - split; [|reflexivity]. intros _.
    apply andb_true_iff in E. destruct E as [E E3].
    apply andb_true_iff in E. destruct E as [E1 E2].
    apply N.ltb_lt in E1, E2, E3. auto.
  - split; [discriminate|]. intros (H1 & H2 & H3).
    apply N.ltb_lt in H1, H2, H3. rewrite H1, H2, H3 in E. discriminate E.
Qed.

(** X14: a version string of one or more ASCII digits parses unless the
    limit on the number of digits applies: [int] fails on it exactly when
    it has more than 640 digits and more digits than the limit of the
    interpreter, if that is switched on; leading zeros count.  Over the
    limit, [_is_newer] returns [False] with the string on either side. *)
Theorem int_of_digits_fails_iff_over_limit :
  forall td msd segment,
    segment <> [] ->
    Forall (fun ch => is_ascii_digit ch = true) segment ->
    (int td msd segment = None <->
     640 < N.of_nat (List.length segment) /\ 0 < msd
     /\ msd < N.of_nat (List.length segment)) /\
    (640 < N.of_nat (List.length segment) /\ 0 < msd
     /\ msd < N.of_nat (List.length segment) ->
     forall other,
       is_newer_returns td msd segment other false /\
       is_newer_returns td msd other segment false).
Proof.
  intros td msd segment Hne Hs.
  pose proof (int_of_digits td msd segment Hne Hs) as Hint.
  split; [exact Hint|]. intros Hover other.
  assert (Hdot : ~ In 46 segment).
  { intros Hin. rewrite Forall_forall in Hs. specialize (Hs 46 Hin).
    discriminate Hs. }
  assert (Hparts : parts td msd segment = None).
  { unfold parts. rewrite (split_no_sep _ _ Hdot). cbn [int_each].
    rewrite (proj2 Hint Hover). reflexivity. }
  split; apply is_newer_returns_value; unfold newer_value; rewrite Hparts;
    [reflexivity | destruct (parts td msd other); reflexivity].
Qed.

Lemma int_of_digits_fails_iff_over_limit_witness :
  int unicode_14_decimal default_max_str_digits (lit "0042") <> None.
Proof.
  intros H.
  apply (proj1 (int_of_digits_fails_iff_over_limit unicode_14_decimal
                  default_max_str_digits (lit "0042")
                  ltac:(discriminate) ltac:(repeat constructor))) in H.
  destruct H as (H & _). vm_compute in H. discriminate H.
Defined.
